(** * viot: telemetry query DTO and the role-permission seed migration

    A shallow embedding of

    - [app/module/device_data/dto/device_data_dto.py]: the key-set parser
      [keys_comma_separated_values] and the request object
      [TimeseriesAggregationQueryDto] with its field validators, its model
      validator [validate_dto] and its computed fields;
    - [app/database/migrations/versions/..._add_role_permission_data.py]:
      the data migration [upgrade] / [downgrade].

    Python [str] values are sequences of Unicode code points and are modelled
    as [list N]; Python [int] is [Z]; a raised exception is the [Err] branch
    of [Result]. *)

From Stdlib Require Import ZArith NArith List String Ascii Bool Lia DecimalString.
From stdpp Require Import base decidable countable gmap sets list strings.

Open Scope Z_scope.

(** ** Exceptions and results *)

(** One entry of a pydantic [ValidationError]: the location (wire alias of the
    field, empty for the model validator) and the message. *)
Record ErrorDetail := { loc : string; msg : string }.

Inductive Exception :=
| ValueError (m : string)
| OverflowError (m : string)
| ValidationError (errors : list ErrorDetail).

Inductive Result (A : Type) :=
| Ok (a : A)
| Err (e : Exception).
Arguments Ok {A} a.
Arguments Err {A} e.

Definition is_ok {A} (r : Result A) : bool :=
  match r with Ok _ => true | Err _ => false end.

Definition raises_ValidationError {A} (r : Result A) : bool :=
  match r with Err (ValidationError _) => true | _ => false end.

(** ** Strings *)

(** A Python [str]: a list of code points. *)
Abbreviation str := (list N).

(** A literal, code point by code point. *)
Definition u (s : string) : str :=
  List.map N_of_ascii (list_ascii_of_string s).

Definition comma : N := 44%N.

(** [\s] of the [re] module on [str] patterns: the code points for which
    [str.isspace] holds. *)
Definition is_space (c : N) : bool :=
  ((9 <=? c) && (c <=? 13) || (28 <=? c) && (c <=? 32)
   || (c =? 133) || (c =? 160) || (c =? 5760)
   || (8192 <=? c) && (c <=? 8202)
   || (c =? 8232) || (c =? 8233) || (c =? 8239) || (c =? 8287)
   || (c =? 12288))%N.

(** ** Regular expressions of the [re] module

    The fragment that the pattern of the key-set parser needs: a character
    class, concatenation and the greedy star. *)
Inductive regex :=
| Class (p : N → bool)
| Cat (a b : regex)
| Star (a : regex).

(** The greedy star over a body matched by [m]: one more iteration is tried
    first, and only where the rest of the pattern fails after it is the
    iteration given back.  An iteration that consumes nothing ends the
    loop. *)
Fixpoint star_loop (m : str → (str → option str) → option str)
    (fuel : nat) (s : str) (k : str → option str) : option str :=
  match fuel with
  | O => k s
  | S fuel' =>
      match m s (λ s', if (length s' <? length s)%nat
                       then star_loop m fuel' s' k else None) with
      | Some r => Some r
      | None => k s
      end
  end.

(** A backtracking match of [r] anchored at the head of [s]; [k] matches
    what follows [r] in the pattern.  The result is the input left after the
    first match in the order of preference of [re]. *)
Fixpoint rmatch (r : regex) (s : str) (k : str → option str) : option str :=
  match r with
  | Class p =>
      match s with
      | c :: s' => if p c then k s' else None
      | [] => None
      end
  | Cat a b => rmatch a s (λ s', rmatch b s' k)
  | Star a => star_loop (rmatch a) (length s) s k
  end.

(** [re.split(pattern, value)] for a pattern without groups: the leftmost
    match is looked for from the current position, the text before it is a
    fragment, and the scan resumes after the match.  [cur] holds the current
    fragment, reversed; [fuel] bounds the number of scan steps.  The pattern
    below holds a comma, so none of its matches is empty. *)
Fixpoint re_split_scan (pattern : regex) (fuel : nat) (s cur : str) : list str :=
  match fuel with
  | O => [rev cur]
  | S fuel' =>
      match rmatch pattern s Some with
      | Some rest => rev cur :: re_split_scan pattern fuel' rest []
      | None =>
          match s with
          | [] => [rev cur]
          | c :: s' => re_split_scan pattern fuel' s' (c :: cur)
          end
      end
  end.

Definition re_split (pattern : regex) (value : str) : list str :=
  re_split_scan pattern (S (length value)) value [].

(** ** [keys_comma_separated_values] *)

(** [r"\s*,\s*"] *)
Definition separator : regex :=
  Cat (Star (Class is_space))
      (Cat (Class (λ c, c =? comma)%N) (Star (Class is_space))).

(** <<
    result = re.split(r"\s*,\s*", value)
    result = {item for item in result if item}
    if not result: raise ValueError("At least one key is required")
    return result
    >> *)
Definition keys_comma_separated_values (value : str) : Result (gset str) :=
  let result := re_split separator value in
  let result : gset str := list_to_set (filter (λ item, item ≠ []) result) in
  if decide (result = ∅) then Err (ValueError "At least one key is required")
  else Ok result.

(** *** The key-set parser in the words of its contract

    Split on commas; white space surrounding a comma belongs to the
    separator; empty fragments are dropped; the rest is a set. *)

(** White space at the head of the input, dropped. *)
Fixpoint skip_space (s : str) : str :=
  match s with
  | c :: s' => if is_space c then skip_space s' else s
  | [] => []
  end.

(** The separator at the head of [s], found by hand: a comma after the
    longest run of white space, and the white space after the comma. *)
Definition match_sep (s : str) : option str :=
  match skip_space s with
  | c :: rest => if (c =? comma)%N then Some (skip_space rest) else None
  | [] => None
  end.

(** The fragment before the first comma and the fragments after it. *)
Fixpoint split_on_commas (s : str) : str * list str :=
  match s with
  | [] => ([], [])
  | c :: s' =>
      let '(p, ps) := split_on_commas s' in
      if (c =? comma)%N then ([], p :: ps) else (c :: p, ps)
  end.

Definition lstrip (s : str) : str := skip_space s.

Fixpoint rstrip (s : str) : str :=
  match s with
  | [] => []
  | c :: s' =>
      match rstrip s' with
      | [] => if is_space c then [] else [c]
      | r => c :: r
      end
  end.

(** [p] follows a comma: it loses its leading white space, and its trailing
    white space too when another comma follows. *)
Fixpoint trim_after_comma (p : str) (ps : list str) : list str :=
  match ps with
  | [] => [lstrip p]
  | q :: qs => rstrip (lstrip p) :: trim_after_comma q qs
  end.

Definition comma_fragments (s : str) : list str :=
  let '(p, ps) := split_on_commas s in
  match ps with
  | [] => [p]
  | q :: qs => rstrip p :: trim_after_comma q qs
  end.

Definition comma_key_set (s : str) : gset str :=
  list_to_set (filter (λ item, item ≠ []) (comma_fragments s)).

(** ** [datetime] and [timedelta] of the standard library *)

(** A [timedelta] in its normal form: [0 <= seconds < 86400],
    [0 <= microseconds < 1000000], [-999999999 <= days <= 999999999]. *)
Record timedelta := { days : Z; seconds : Z; microseconds : Z }.

Definition MAX_DELTA_DAYS : Z := 999999999.

(** The text of the [OverflowError] for a day count [d] out of range: the
    count is first converted to a C [int], which fails past 32 bits, and is
    then checked against [MAX_DELTA_DAYS]. *)
Definition overflow_message (d : Z) : string :=
  if (-2147483648 <=? d) && (d <=? 2147483647) then
    "days=" ++ NilZero.string_of_int (Z.to_int d)
    ++ "; must have magnitude <= 999999999"
  else "Python int too large to convert to C int".

(** [timedelta(days=.., seconds=.., microseconds=.., milliseconds=..,
    minutes=.., hours=.., weeks=..)] on [int] arguments: the exact sum is
    normalised, and a day count out of range raises [OverflowError]. *)
Definition timedelta_new
    (days_ seconds_ microseconds_ milliseconds_ minutes_ hours_ weeks_ : Z)
    : Result timedelta :=
  let total :=
    microseconds_ + 1000 * milliseconds_
    + 1000000 * (seconds_ + 60 * minutes_ + 3600 * hours_
                 + 86400 * (days_ + 7 * weeks_)) in
  let s := total / 1000000 in
  let d := s / 86400 in
  if (Z.abs d <=? MAX_DELTA_DAYS) then
    Ok {| days := d; seconds := s mod 86400; microseconds := total mod 1000000 |}
  else Err (OverflowError (overflow_message d)).

(** The duration a [timedelta] stands for. *)
Definition total_microseconds (td : timedelta) : Z :=
  (days td * 86400 + seconds td) * 1000000 + microseconds td.

Definition normalized (td : timedelta) : Prop :=
  0 <= seconds td < 86400 ∧ 0 <= microseconds td < 1000000
  ∧ - MAX_DELTA_DAYS <= days td <= MAX_DELTA_DAYS.

(** A [datetime]: the wall-clock fields and [tzinfo], the UTC offset in
    microseconds when the value is aware, [None] when it is naive. *)
Record datetime := {
  year : Z; month : Z; day : Z;
  hour : Z; minute : Z; second : Z; microsecond : Z;
  tzinfo : option Z
}.

(** [dt.replace(tzinfo=tz)]: every other field is kept as it is. *)
Definition replace_tzinfo (dt : datetime) (tz : option Z) : datetime :=
  {| year := year dt; month := month dt; day := day dt;
     hour := hour dt; minute := minute dt; second := second dt;
     microsecond := microsecond dt; tzinfo := tz |}.

(** The wall clock of a value, whatever its [tzinfo]. *)
Definition wall_clock (dt : datetime) : list Z :=
  [year dt; month dt; day dt; hour dt; minute dt; second dt; microsecond dt].

Fixpoint lex_compare (a b : list Z) : comparison :=
  match a, b with
  | [], [] => Eq
  | [], _ :: _ => Lt
  | _ :: _, [] => Gt
  | x :: a', y :: b' =>
      match x ?= y with
      | Eq => lex_compare a' b'
      | c => c
      end
  end.

(** Ordering of two naive values: field by field, most significant first.
    The request object only ever holds naive values (see
    [transform_start_date]), so the aware case is not needed. *)
Definition datetime_compare (a b : datetime) : comparison :=
  lex_compare (wall_clock a) (wall_clock b).

(** [a >= b] *)
Definition datetime_ge (a b : datetime) : bool :=
  match datetime_compare a b with Lt => false | _ => true end.

(** [a < b] *)
Definition datetime_lt (a b : datetime) : bool :=
  match datetime_compare a b with Lt => true | _ => false end.

(** ** Constants of [app/module/device_data/constants.py] *)

(** Modelled from the spec: the enumeration [IntervalType] is declared in
    [constants.py], which is not part of the sources at hand; the spec lists
    its members as millisecond, hour, day, week, month, year, the six that
    [interval_in_timedelta] names. *)
Inductive IntervalType := MILLISECOND | HOUR | DAY | WEEK | MONTH | YEAR.

#[global] Instance IntervalType_eq_dec : EqDecision IntervalType.
Proof. solve_decision. Defined.

(** ** [TimeseriesAggregationQueryDto] *)

(** The field [keys] carries [pattern=r"^[a-zA-Z0-9_,-]+$"]. *)
Definition keys_char (c : N) : bool :=
  ((97 <=? c) && (c <=? 122) || (65 <=? c) && (c <=? 90)
   || (48 <=? c) && (c <=? 57) || (c =? 95) || (c =? 44) || (c =? 45))%N.

Definition keys_pattern (value : str) : bool :=
  match value with
  | [] => false
  | _ => forallb keys_char value
  end.

Section Dto.

(** [AggregationType] and [Timezone] ([constants.py]) and [SortDirection]
    ([app/database/repository/pagination.py]) are enumerations declared
    outside the sources at hand; no code here looks inside them. *)
Context {AggregationType Timezone SortDirection : Type}.

(** [datetime.fromisoformat] on a [str]: the parsed value, or [None] where
    it raises [ValueError]. *)
Variable fromisoformat : str → option datetime.

(** The model's fields, under their Python names. *)
Record TimeseriesAggregationQueryDto := {
  keys__ : str;
  start_date : datetime;
  end_date : datetime;
  interval_type : option IntervalType;
  interval : Z;
  agg : option AggregationType;
  limit : Z;
  timezone : option Timezone;
  order_by : option SortDirection
}.

(** The query parameters as they arrive, under their aliases, the
    enumerations already decoded.  [keys], [startDate] and [endDate] are
    required; an absent optional parameter is [None].  The decoding itself,
    with its failures, is the matter of [construct_raw] further down. *)
Record Query := {
  q_keys : str;
  q_startDate : str;
  q_endDate : str;
  q_intervalType : option IntervalType;
  q_interval : option Z;
  q_agg : option AggregationType;
  q_limit : option Z;
  q_timezone : option Timezone;
  q_orderBy : option SortDirection
}.

(** <<
    @computed_field
    def keys(self): return keys_comma_separated_values(self.keys__)
    >> *)
Definition keys (self : TimeseriesAggregationQueryDto) : Result (gset str) :=
  keys_comma_separated_values (keys__ self).

Definition interval_in_timedelta (self : TimeseriesAggregationQueryDto)
    : Result timedelta :=
  match interval_type self with
  | None => Err (ValueError "Interval and interval type must be provided")
  | Some it =>
      if interval self =? 0 then
        Err (ValueError "Interval and interval type must be provided")
      else if decide (it = MILLISECOND) then
        timedelta_new 0 0 0 (interval self) 0 0 0
      else if decide (it = HOUR) then
        timedelta_new 0 0 0 0 0 (interval self) 0
      else if decide (it = DAY) then
        timedelta_new (interval self) 0 0 0 0 0 0
      else if decide (it = WEEK) then
        timedelta_new 0 0 0 0 0 0 (interval self)
      else if decide (it = MONTH) then
        timedelta_new (interval self * 30) 0 0 0 0 0 0
      else if decide (it = YEAR) then
        timedelta_new (interval self * 365) 0 0 0 0 0 0
      else Err (ValueError "Invalid interval type")
  end.

(** [self.interval > 0 and self.interval_type is not None and
    self.agg is not None] *)
Definition is_aggregate_query (self : TimeseriesAggregationQueryDto) : bool :=
  (0 <? interval self) && bool_decide (interval_type self ≠ None)
  && bool_decide (agg self ≠ None).

(** [datetime.fromisoformat(value).replace(tzinfo=None)] *)
Definition transform_start_date (value : str) : option datetime :=
  dt ← fromisoformat value; Some (replace_tzinfo dt None).

Definition transform_end_date (value : str) : option datetime :=
  dt ← fromisoformat value; Some (replace_tzinfo dt None).

(** The model validator, run after the fields. *)
Definition validate_dto (self : TimeseriesAggregationQueryDto)
    : Result TimeseriesAggregationQueryDto :=
  if datetime_ge (start_date self) (end_date self) then
    Err (ValueError "End date must be greater than start date")
  else if (interval self =? 0) || bool_decide (interval_type self = None)
          || bool_decide (agg self = None) then
    Err (ValueError
      "When using aggregation, 'interval', 'intervalType', and 'agg' must be provided")
  else Ok self.

(** *** Construction

    Every field is validated in declaration order and the failures are
    collected; the model validator runs only when there are none.  A
    [ValueError] raised by a validator becomes an entry of the
    [ValidationError]. *)

Definition field_error (alias message : string) : list ErrorDetail :=
  [{| loc := alias; msg := message |}].

Definition check_keys (value : str) : list ErrorDetail :=
  if keys_pattern value then []
  else field_error "keys" "String should match pattern '^[a-zA-Z0-9_,-]+$'".

(** The message of the [ValueError] of [fromisoformat] quotes the input; it
    is cut short here, and carried in full by [field_date] further down. *)
Definition check_date (alias : string) (value : option datetime)
    : list ErrorDetail :=
  match value with
  | Some _ => []
  | None => field_error alias "Value error, Invalid isoformat string"
  end.

(** [ge=0] *)
Definition check_interval (value : Z) : list ErrorDetail :=
  if 0 <=? value then []
  else field_error "interval" "Input should be greater than or equal to 0".

(** [ge=0, le=500] *)
Definition check_limit (value : Z) : list ErrorDetail :=
  if negb (0 <=? value) then
    field_error "limit" "Input should be greater than or equal to 0"
  else if negb (value <=? 500) then
    field_error "limit" "Input should be less than or equal to 500"
  else [].

Definition field_errors (q : Query) : list ErrorDetail :=
  check_keys (q_keys q)
  ++ check_date "startDate" (transform_start_date (q_startDate q))
  ++ check_date "endDate" (transform_end_date (q_endDate q))
  ++ check_interval (default 0 (q_interval q))
  ++ check_limit (default 100 (q_limit q)).

Definition construct (q : Query) : Result TimeseriesAggregationQueryDto :=
  match field_errors q,
        transform_start_date (q_startDate q),
        transform_end_date (q_endDate q) with
  | [], Some s, Some e =>
      let self :=
        {| keys__ := q_keys q;
           start_date := s;
           end_date := e;
           interval_type := q_intervalType q;
           interval := default 0 (q_interval q);
           agg := q_agg q;
           limit := default 100 (q_limit q);
           timezone := q_timezone q;
           order_by := q_orderBy q |} in
      match validate_dto self with
      | Ok self' => Ok self'
      | Err (ValueError m) =>
          Err (ValidationError (field_error "" ("Value error, " ++ m)))
      | Err e => Err e
      end
  | errors, _, _ => Err (ValidationError errors)
  end.

(** *** Parts of a valid request, named for the statements below *)

(** The two failures of the model validator, as construction reports
    them. *)
Definition end_before_start : list ErrorDetail :=
  field_error "" "Value error, End date must be greater than start date".

Definition aggregation_incomplete : list ErrorDetail :=
  field_error ""
    "Value error, When using aggregation, 'interval', 'intervalType', and 'agg' must be provided".

(** [interval] and [limit] are within their declared bounds. *)
Definition numbers_in_range (q : Query) : bool :=
  (0 <=? default 0 (q_interval q))
  && (0 <=? default 100 (q_limit q)) && (default 100 (q_limit q) <=? 500).

(** What the second check of [validate_dto] asks for. *)
Definition aggregation_complete (q : Query) : bool :=
  negb (default 0 (q_interval q) =? 0)
  && bool_decide (q_intervalType q ≠ None) && bool_decide (q_agg q ≠ None).

(** Both dates parse and the start lies before the end. *)
Definition dates_in_order (q : Query) : bool :=
  match transform_start_date (q_startDate q),
        transform_end_date (q_endDate q) with
  | Some s, Some e => datetime_lt s e
  | _, _ => false
  end.

(** A request that is valid but for the order of its dates, and one that
    is valid but for its keys. *)
Definition valid_apart_from_dates (q : Query) : bool :=
  keys_pattern (q_keys q) && numbers_in_range q && aggregation_complete q.

Definition valid_apart_from_keys (q : Query) : bool :=
  numbers_in_range q && aggregation_complete q && dates_in_order q.

(** The object that construction builds when every check passes. *)
Definition dto_of (q : Query) (s e : datetime) : TimeseriesAggregationQueryDto :=
  {| keys__ := q_keys q;
     start_date := s;
     end_date := e;
     interval_type := q_intervalType q;
     interval := default 0 (q_interval q);
     agg := q_agg q;
     limit := default 100 (q_limit q);
     timezone := q_timezone q;
     order_by := q_orderBy q |}.

End Dto.

(** The smallest step of a [datetime]. *)
Definition next_microsecond (dt : datetime) : datetime :=
  {| year := year dt; month := month dt; day := day dt;
     hour := hour dt; minute := minute dt; second := second dt;
     microsecond := microsecond dt + 1; tzinfo := tzinfo dt |}.

(** *** The table of interval resolution, in the words of its contract

    The length of one unit of each interval type, in microseconds: a
    millisecond, an hour, a day, a week, 30 days for a month and 365 days
    for a year. *)
Definition duration_table (it : IntervalType) : Z :=
  match it with
  | MILLISECOND => 1000
  | HOUR => 3600 * 1000000
  | DAY => 86400 * 1000000
  | WEEK => 7 * (86400 * 1000000)
  | MONTH => 30 * (86400 * 1000000)
  | YEAR => 365 * (86400 * 1000000)
  end.

(** The longest duration a [timedelta] holds falls short of
    [MAX_DELTA_DAYS + 1] days. *)
Definition timedelta_limit : Z := (MAX_DELTA_DAYS + 1) * (86400 * 1000000).

Definition timedelta_of_days (n : Z) : timedelta :=
  {| days := n; seconds := 0; microseconds := 0 |}.

(** The interval types whose unit is a whole number of days. *)
Definition days_per_unit : list (IntervalType * Z) :=
  [(DAY, 1); (WEEK, 7); (MONTH, 30); (YEAR, 365)].

(** ** Instances for the parts declared outside the sources at hand *)

Module Enums.

(** Modelled from the spec: [AggregationType] is declared in
    [constants.py]; the spec calls it an enumerated aggregation function and
    its glossary names sum, avg, min and max. *)
Inductive AggregationType := SUM | AVG | MIN | MAX.

(** Modelled from the spec: [SortDirection] is declared in
    [pagination.py]; the spec gives its values as asc and desc. *)
Inductive SortDirection := ASC | DESC.

(** Modelled from the spec: [Timezone] is declared in [constants.py]; the
    spec gives it as an enumeration or string naming a display time zone. *)
Definition Timezone : Type := string.

End Enums.

(** *** The extended ISO 8601 format

    [YYYY-MM-DD[*HH[:MM[:SS[.fff[fff]]]][Z|+HH:MM|-HH:MM]]], the format that
    the documentation of [datetime.fromisoformat] gives first; the function
    of the standard library accepts further ISO 8601 forms, which this
    instance leaves out. *)

Definition digit (c : N) : option Z :=
  if ((48 <=? c) && (c <=? 57))%N then Some (Z.of_N c - 48) else None.

(** Exactly [n] decimal digits. *)
Fixpoint digits (n : nat) (s : str) : option (Z * str) :=
  match n, s with
  | O, _ => Some (0, s)
  | S n', c :: s' =>
      d ← digit c; '(v, r) ← digits n' s'; Some (d * 10 ^ Z.of_nat n' + v, r)
  | S _, [] => None
  end.

Definition expect (c : N) (s : str) : option str :=
  match s with
  | c' :: s' => if (c' =? c)%N then Some s' else None
  | [] => None
  end.

Definition is_leap (y : Z) : bool :=
  (y mod 4 =? 0) && (negb (y mod 100 =? 0) || (y mod 400 =? 0)).

Definition days_in_month (y m : Z) : Z :=
  if m =? 2 then (if is_leap y then 29 else 28)
  else if (m =? 4) || (m =? 6) || (m =? 9) || (m =? 11) then 30
  else 31.

Definition parse_date (s : str) : option (Z * Z * Z * str) :=
  '(y, s) ← digits 4 s; s ← expect 45 s;
  '(m, s) ← digits 2 s; s ← expect 45 s;
  '(d, s) ← digits 2 s;
  if (1 <=? y) && (1 <=? m) && (m <=? 12) && (1 <=? d) && (d <=? days_in_month y m)
  then Some (y, m, d, s) else None.

Definition parse_fraction (s : str) : option (Z * str) :=
  match expect 46 s with
  | None => Some (0, s)
  | Some s' =>
      match digits 6 s' with
      | Some r => Some r
      | None => '(v, r) ← digits 3 s'; Some (v * 1000, r)
      end
  end.

Definition parse_clock (s : str) : option (Z * Z * Z * Z * str) :=
  '(h, s) ← digits 2 s;
  match expect 58 s with
  | None => Some (h, 0, 0, 0, s)
  | Some s =>
      '(mi, s) ← digits 2 s;
      match expect 58 s with
      | None => Some (h, mi, 0, 0, s)
      | Some s =>
          '(sec, s) ← digits 2 s; '(us, s) ← parse_fraction s;
          Some (h, mi, sec, us, s)
      end
  end.

(** The UTC offset that ends the string, in microseconds. *)
Definition parse_offset (s : str) : option (option Z) :=
  match s with
  | [] => Some None
  | c :: s' =>
      if (c =? 90)%N then (match s' with [] => Some (Some 0) | _ => None end)
      else if ((c =? 43) || (c =? 45))%N then
        '(h, s) ← digits 2 s'; s ← expect 58 s; '(m, s) ← digits 2 s;
        match s with
        | [] =>
            if (h <? 24) && (m <? 60) then
              Some (Some ((if (c =? 45)%N then -1 else 1)
                          * ((h * 3600 + m * 60) * 1000000)))
            else None
        | _ => None
        end
      else None
  end.

Definition fromisoformat_extended (s : str) : option datetime :=
  '(y, m, d, s) ← parse_date s;
  match s with
  | [] =>
      Some {| year := y; month := m; day := d; hour := 0; minute := 0;
              second := 0; microsecond := 0; tzinfo := None |}
  | _ :: s =>
      '(h, mi, sec, us, s) ← parse_clock s;
      tz ← parse_offset s;
      if (h <? 24) && (mi <? 60) && (sec <? 60) then
        Some {| year := y; month := m; day := d; hour := h; minute := mi;
                second := sec; microsecond := us; tzinfo := tz |}
      else None
  end.

(** ** The data migration [add role permission data] *)

Module Migration.

(** Modelled from the spec: the ORM models [Permission], [Role] and
    [RolePermission] live in [app/models], which is not part of the sources
    at hand.  The spec describes permission records of scope, title and
    description, roles that carry a name, association records linking a
    role and a permission, and a store with autoincrement-style identifier
    assignment.  Rows carry the columns that the migration reads or
    writes. *)
Record Permission := {
  id : Z; scope : string; title : string; description : string
}.

(** [role_ident] is the column [Role.id]. *)
Record Role := { role_ident : Z; name : string }.

Record RolePermission := { role_id : Z; permission_id : Z }.

(** A table is the list of its rows in insertion order;
    [permission_id_seq] is the next identifier the store hands out. *)
Record Store := {
  permission_table : list Permission;
  role_table : list Role;
  role_permission_table : list RolePermission;
  permission_id_seq : Z
}.

(** A member of [TeamRolePermission]:
    [app/module/auth/permission.py] is not at hand; the migration reads the
    attributes [scope], [title] and [description] of its members. *)
Record PermissionSpec := {
  spec_scope : string; spec_title : string; spec_description : string
}.

Section Seed.

(** [TEAM_ROLE_OWNER] of [app/module/auth/constants.py] and the members
    [READ], [MANAGE], [DELETE] of [TeamRolePermission]. *)
Variable TEAM_ROLE_OWNER : string.
Variables READ MANAGE DELETE : PermissionSpec.

(** The module-level list [permissions]: objects not yet given an [id]. *)
Definition permissions : list PermissionSpec := [READ; MANAGE; DELETE].

(** [select(Role.id).where(Role.name == TEAM_ROLE_OWNER)] *)
Definition role_owner_ids_stmt (s : Store) : list Z :=
  role_ident <$> filter (λ r, name r = TEAM_ROLE_OWNER) (role_table s).

(** [session.add_all(..); session.flush()]: one row per object, each with
    the next identifier of the sequence. *)
Fixpoint flush (next : Z) (objs : list PermissionSpec) : list Permission :=
  match objs with
  | [] => []
  | p :: objs' =>
      {| id := next; scope := spec_scope p; title := spec_title p;
         description := spec_description p |} :: flush (next + 1) objs'
  end.

Definition upgrade (s : Store) : Store :=
  let added := flush (permission_id_seq s) permissions in
  let s :=
    {| permission_table := permission_table s ++ added;
       role_table := role_table s;
       role_permission_table := role_permission_table s;
       permission_id_seq := permission_id_seq s + Z.of_nat (length added) |} in
  let role_owner_ids := role_owner_ids_stmt s in
  let values :=
    permission ← added;
    role_id ← role_owner_ids;
    [{| role_id := role_id; permission_id := id permission |}] in
  match values with
  | [] => s
  | _ =>
      {| permission_table := permission_table s;
         role_table := role_table s;
         role_permission_table := role_permission_table s ++ values;
         permission_id_seq := permission_id_seq s |}
  end.

Definition downgrade (s : Store) : Store :=
  let role_owner_ids := role_owner_ids_stmt s in
  let scopes := spec_scope <$> permissions in
  let permission_ids :=
    id <$> filter (λ p, scope p ∈ scopes) (permission_table s) in
  let s :=
    {| permission_table := permission_table s;
       role_table := role_table s;
       role_permission_table :=
         filter (λ rp, ¬ (role_id rp ∈ role_owner_ids
                          ∧ permission_id rp ∈ permission_ids))
                (role_permission_table s);
       permission_id_seq := permission_id_seq s |} in
  {| permission_table :=
       filter (λ p, ¬ (scope p ∈ scopes)) (permission_table s);
     role_table := role_table s;
     role_permission_table := role_permission_table s;
     permission_id_seq := permission_id_seq s |}.

(** Modelled from the spec: two conditions on a store, named for the
    statements below.  With an autoincrement-style identifier assignment the
    identifiers in use lie below the sequence; an association record that
    links a role and a permission refers to a stored permission.  The
    migration does not enforce either: [downgrade] keeps the association
    rows of the other roles also where it deletes their permission. *)
Definition fresh_ids (s : Store) : Prop :=
  ∀ p, p ∈ permission_table s → id p < permission_id_seq s.

Definition foreign_keys (s : Store) : Prop :=
  ∀ rp, rp ∈ role_permission_table s →
    ∃ p, p ∈ permission_table s ∧ id p = permission_id rp.



(** No stored permission carries a seeded scope. *)
Definition unseeded (s : Store) : Prop :=
  ∀ p, p ∈ permission_table s → scope p ∉ spec_scope <$> permissions.

(** The links a store holds: role identifier and scope of the permission
    linked, one per association row. *)
Definition links (s : Store) : list (Z * string) :=
  rp ← role_permission_table s;
  p ← filter (λ p, id p = permission_id rp) (permission_table s);
  [(role_id rp, scope p)].

(** The association rows that [upgrade] builds. *)
Definition seeded_links (s : Store) : list RolePermission :=
  permission ← flush (permission_id_seq s) permissions;
  role_id ← role_owner_ids_stmt s;
  [{| role_id := role_id; permission_id := id permission |}].

(** The store with one owner role and nothing else. *)
Definition one_owner : Store :=
  {| permission_table := [];
     role_table := [{| role_ident := 1; name := TEAM_ROLE_OWNER |}];
     role_permission_table := [];
     permission_id_seq := 1 |}.

End Seed.

End Migration.

(** ** Sample requests *)

Module Samples.

Abbreviation Query := (@Query Enums.AggregationType Enums.Timezone Enums.SortDirection).
Abbreviation Dto :=
  (@TimeseriesAggregationQueryDto Enums.AggregationType Enums.Timezone
                                  Enums.SortDirection).

(** Two-week averages of two keys over the year 2021. *)
Definition weekly : Query :=
  {| q_keys := u "temp,humidity,,temp";
     q_startDate := u "2021-01-01T00:00:00+05:00";
     q_endDate := u "2022-01-01T00:00:00";
     q_intervalType := Some WEEK;
     q_interval := Some 2;
     q_agg := Some Enums.AVG;
     q_limit := None;
     q_timezone := None;
     q_orderBy := Some Enums.ASC |}.

(** The same request with a space after the first comma of [keys]. *)
Definition weekly_spaced : Query :=
  {| q_keys := u "temp, humidity,,temp";
     q_startDate := q_startDate weekly;
     q_endDate := q_endDate weekly;
     q_intervalType := q_intervalType weekly;
     q_interval := q_interval weekly;
     q_agg := q_agg weekly;
     q_limit := q_limit weekly;
     q_timezone := q_timezone weekly;
     q_orderBy := q_orderBy weekly |}.

(** A window one microsecond long. *)
Definition shortest : Query :=
  {| q_keys := u "temp";
     q_startDate := u "2021-01-01T00:00:00.000000";
     q_endDate := u "2021-01-01T00:00:00.000001";
     q_intervalType := Some HOUR;
     q_interval := Some 1;
     q_agg := Some Enums.MAX;
     q_limit := Some 500;
     q_timezone := None;
     q_orderBy := None |}.

(** A request for raw points: no interval, no interval type, no
    aggregation. *)
Definition raw_points : Query :=
  {| q_keys := u "temp";
     q_startDate := u "2021-01-01T00:00:00";
     q_endDate := u "2022-01-01T00:00:00";
     q_intervalType := None;
     q_interval := None;
     q_agg := None;
     q_limit := Some 50;
     q_timezone := None;
     q_orderBy := None |}.

Definition new_year_2021 : datetime :=
  {| year := 2021; month := 1; day := 1; hour := 0; minute := 0;
     second := 0; microsecond := 0; tzinfo := None |}.

Definition new_year_2022 : datetime :=
  {| year := 2022; month := 1; day := 1; hour := 0; minute := 0;
     second := 0; microsecond := 0; tzinfo := None |}.

(** An object holding an interval of [n] units of [it]. *)
Definition with_interval (it : option IntervalType) (n : Z) : Dto :=
  {| keys__ := u "temp";
     start_date := new_year_2021;
     end_date := new_year_2022;
     interval_type := it;
     interval := n;
     agg := Some Enums.SUM;
     limit := 100;
     timezone := None;
     order_by := None |}.

End Samples.

(** ** Sample stores *)

Module SampleStores.

Import Migration.

Definition owner : string := "Owner".

Definition read : PermissionSpec :=
  {| spec_scope := "team.roles:read"; spec_title := "Read roles";
     spec_description := "Read the roles of a team" |}.

Definition manage : PermissionSpec :=
  {| spec_scope := "team.roles:manage"; spec_title := "Manage roles";
     spec_description := "Create and update the roles of a team" |}.

Definition delete : PermissionSpec :=
  {| spec_scope := "team.roles:delete"; spec_title := "Delete roles";
     spec_description := "Delete the roles of a team" |}.

(** Two teams with an owner role each, a member role, and one permission
    already linked to the first owner and to the member. *)
Definition two_teams : Store :=
  {| permission_table :=
       [{| id := 1; scope := "team:read"; title := "Read team";
           description := "Read a team" |}];
     role_table :=
       [{| role_ident := 10; name := "Owner" |};
        {| role_ident := 11; name := "Member" |};
        {| role_ident := 12; name := "Owner" |}];
     role_permission_table :=
       [{| role_id := 10; permission_id := 1 |};
        {| role_id := 11; permission_id := 1 |}];
     permission_id_seq := 2 |}.

End SampleStores.

(** ** The dependencies [start_date_value] and [end_date_value] *)

(** [return value.replace(tzinfo=None)] *)
Definition start_date_value (value : datetime) : datetime :=
  replace_tzinfo value None.

Definition end_date_value (value : datetime) : datetime :=
  replace_tzinfo value None.

(** ** Notions for the statements on the key-set parser *)

(** The keys that the parser finds: its result, or no key where it
    raises. *)
Definition keys_found (value : str) : gset str :=
  match keys_comma_separated_values value with
  | Ok ks => ks
  | Err _ => ∅
  end.

(** A string without white space. *)
Definition no_space (s : str) : bool :=
  forallb (λ c, negb (is_space c)) s.

(** A string of commas only. *)
Definition only_commas (s : str) : bool :=
  forallb (λ c, c =? comma)%N s.

(** ** Further sample requests *)

Module MoreSamples.

(** Valid in every field, with no key between its commas. *)
Definition no_keys : Samples.Query :=
  {| q_keys := u ",,";
     q_startDate := u "2021-01-01T00:00:00";
     q_endDate := u "2022-01-01T00:00:00";
     q_intervalType := Some DAY;
     q_interval := Some 1;
     q_agg := Some Enums.MIN;
     q_limit := None;
     q_timezone := None;
     q_orderBy := None |}.

(** Ten hours between two instants with the same wall clock. *)
Definition ten_hours : Samples.Query :=
  {| q_keys := u "temp";
     q_startDate := u "2021-01-01T00:00:00+05:00";
     q_endDate := u "2021-01-01T00:00:00-05:00";
     q_intervalType := Some HOUR;
     q_interval := Some 1;
     q_agg := Some Enums.AVG;
     q_limit := None;
     q_timezone := None;
     q_orderBy := None |}.

(** Dates out of order and nothing said about aggregation. *)
Definition backwards : Samples.Query :=
  {| q_keys := u "temp";
     q_startDate := u "2022-01-01T00:00:00";
     q_endDate := u "2021-01-01T00:00:00";
     q_intervalType := None;
     q_interval := None;
     q_agg := None;
     q_limit := None;
     q_timezone := None;
     q_orderBy := None |}.


(** A store without any role of the owner name. *)
Definition no_owner : Migration.Store :=
  {| Migration.permission_table := [];
     Migration.role_table :=
       [{| Migration.role_ident := 11; Migration.name := "Member" |}];
     Migration.role_permission_table := [];
     Migration.permission_id_seq := 1 |}.

(** A store that already holds a permission of the scope of
    [SampleStores.read], linked to a member role. *)
Definition already_seeded : Migration.Store :=
  {| Migration.permission_table :=
       [{| Migration.id := 1; Migration.scope := "team.roles:read";
           Migration.title := "Read roles, by hand";
           Migration.description := "Inserted before the migration" |}];
     Migration.role_table :=
       [{| Migration.role_ident := 10; Migration.name := "Owner" |};
        {| Migration.role_ident := 11; Migration.name := "Member" |}];
     Migration.role_permission_table :=
       [{| Migration.role_id := 11; Migration.permission_id := 1 |}];
     Migration.permission_id_seq := 2 |}.

End MoreSamples.

(** ** Construction from the raw parameters

    [construct] starts from parameters whose enumerations and integers are
    decoded already.  Here every parameter arrives as the text that the
    query string gives it, or not at all, and the decoding of pydantic is
    part of the validation of its field: [intervalType], [agg], [timezone]
    and [orderBy] must name a member of their enumeration, [interval] and
    [limit] must be integers, and [keys], [startDate] and [endDate] must be
    there. *)

(** What decoding a text gives: the value, or the message of the failure. *)
Inductive Decoded (A : Type) :=
| Valid (a : A)
| Invalid (message : string).
Arguments Valid {A} a.
Arguments Invalid {A} message.

(** The failures of one field, or its value. *)
Definition errors_of {A} (f : list ErrorDetail + A) : list ErrorDetail :=
  match f with inl errs => errs | inr _ => [] end.

(** Two fields in the order of their declaration: both values, or the
    failures of the one followed by those of the other. *)
Definition both {A B} (f : list ErrorDetail + A) (g : list ErrorDetail + B)
    : list ErrorDetail + (A * B) :=
  match f, g with
  | inr a, inr b => inr (a, b)
  | _, _ => inl (errors_of f ++ errors_of g)
  end.

(** The failures of a field are there and lie at one of [names]. *)
Definition located {A} (names : list string) (f : list ErrorDetail + A)
    : Prop :=
  ∀ errs, f = inl errs → errs ≠ [] ∧ ∀ x, x ∈ errs → loc x ∈ names.

Section RawConstruction.

Context {AggregationType Timezone SortDirection : Type}.

(** [datetime.fromisoformat] on a [str]: the parsed value, or the text of
    the [ValueError] that it raises. *)
Variable fromisoformat_text : str → Decoded datetime.

(** The decoding of a member of each enumeration and of an integer from the
    text of a parameter, with pydantic's message where it fails. *)
Variable decode_IntervalType : str → Decoded IntervalType.
Variable decode_AggregationType : str → Decoded AggregationType.
Variable decode_Timezone : str → Decoded Timezone.
Variable decode_SortDirection : str → Decoded SortDirection.
Variable decode_int : str → Decoded Z.

(** The parameters of the query string, under their aliases; [None] is a
    parameter that is not given. *)
Record RawQuery := {
  r_keys : option str;
  r_startDate : option str;
  r_endDate : option str;
  r_intervalType : option str;
  r_interval : option str;
  r_agg : option str;
  r_limit : option str;
  r_timezone : option str;
  r_orderBy : option str
}.

(** The parser of the dates without its messages. *)
Definition fromisoformat_of (value : str) : option datetime :=
  match fromisoformat_text value with
  | Valid dt => Some dt
  | Invalid _ => None
  end.

(** [keys__]: required, a string matching the pattern. *)
Definition field_keys (raw : option str) : list ErrorDetail + str :=
  match raw with
  | None => inl (field_error "keys" "Field required")
  | Some v =>
      match check_keys v with
      | [] => inr v
      | errs => inl errs
      end
  end.

(** [start_date] and [end_date]: required; the validator of the field parses
    the text and drops the time zone, and its [ValueError] becomes the
    failure of the field. *)
Definition field_date (alias : string) (raw : option str)
    : list ErrorDetail + datetime :=
  match raw with
  | None => inl (field_error alias "Field required")
  | Some v =>
      match fromisoformat_text v with
      | Valid dt => inr (replace_tzinfo dt None)
      | Invalid m => inl (field_error alias ("Value error, " ++ m))
      end
  end.

(** A field with default [None]. *)
Definition field_optional {A} (alias : string) (decode : str → Decoded A)
    (raw : option str) : list ErrorDetail + option A :=
  match raw with
  | None => inr None
  | Some v =>
      match decode v with
      | Valid a => inr (Some a)
      | Invalid m => inl (field_error alias m)
      end
  end.

(** An integer field with a default and bounds; the default is not
    validated. *)
Definition field_number (alias : string) (check : Z → list ErrorDetail)
    (dflt : Z) (raw : option str) : list ErrorDetail + Z :=
  match raw with
  | None => inr dflt
  | Some v =>
      match decode_int v with
      | Valid n =>
          match check n with
          | [] => inr n
          | errs => inl errs
          end
      | Invalid m => inl (field_error alias m)
      end
  end.

(** The fields in the order of their declaration. *)
Definition fields (rq : RawQuery) :=
  both (field_keys (r_keys rq))
    (both (field_date "startDate" (r_startDate rq))
      (both (field_date "endDate" (r_endDate rq))
        (both (field_optional "intervalType" decode_IntervalType
                 (r_intervalType rq))
          (both (field_number "interval" check_interval 0 (r_interval rq))
            (both (field_optional "agg" decode_AggregationType (r_agg rq))
              (both (field_number "limit" check_limit 100 (r_limit rq))
                (both (field_optional "timezone" decode_Timezone
                         (r_timezone rq))
                      (field_optional "orderBy" decode_SortDirection
                         (r_orderBy rq))))))))).

Definition raw_field_errors (rq : RawQuery) : list ErrorDetail :=
  errors_of (fields rq).

Definition construct_raw (rq : RawQuery)
    : Result (@TimeseriesAggregationQueryDto AggregationType Timezone
                SortDirection) :=
  match fields rq with
  | inl errors => Err (ValidationError errors)
  | inr (k, (s, (e, (it, (n, (a, (l, (tz, ob)))))))) =>
      let self :=
        {| keys__ := k;
           start_date := s;
           end_date := e;
           interval_type := it;
           interval := n;
           agg := a;
           limit := l;
           timezone := tz;
           order_by := ob |} in
      match validate_dto self with
      | Ok self' => Ok self'
      | Err (ValueError m) =>
          Err (ValidationError (field_error "" ("Value error, " ++ m)))
      | Err e => Err e
      end
  end.

(** *** The decoding alone, named for the statements below *)

Definition decode_optional {A} (decode : str → Decoded A) (raw : option str)
    : option (option A) :=
  match raw with
  | None => Some None
  | Some v =>
      match decode v with
      | Valid a => Some (Some a)
      | Invalid _ => None
      end
  end.

(** The decoded parameters, where the three required ones are given and
    every other one that is given decodes. *)
Definition decoded (rq : RawQuery)
    : option (@Query AggregationType Timezone SortDirection) :=
  k ← r_keys rq;
  s ← r_startDate rq;
  e ← r_endDate rq;
  it ← decode_optional decode_IntervalType (r_intervalType rq);
  n ← decode_optional decode_int (r_interval rq);
  a ← decode_optional decode_AggregationType (r_agg rq);
  l ← decode_optional decode_int (r_limit rq);
  tz ← decode_optional decode_Timezone (r_timezone rq);
  ob ← decode_optional decode_SortDirection (r_orderBy rq);
  Some {| q_keys := k; q_startDate := s; q_endDate := e;
          q_intervalType := it; q_interval := n; q_agg := a;
          q_limit := l; q_timezone := tz; q_orderBy := ob |}.

(** The aliases of the fields. *)
Definition aliases : list string :=
  ["keys"; "startDate"; "endDate"; "intervalType"; "interval"; "agg";
   "limit"; "timezone"; "orderBy"]%string.

End RawConstruction.

(** *** Sample decoders

    Stand-ins for the decoding of pydantic, for the sample requests only. *)

Module SampleDecoders.

(** Modelled from the spec: the values of [orderBy] are given as asc and
    desc. *)
Definition sort_direction (v : str) : Decoded Enums.SortDirection :=
  if decide (v = u "asc") then Valid Enums.ASC
  else if decide (v = u "desc") then Valid Enums.DESC
  else Invalid "Input should be 'asc' or 'desc'".

(** Modelled from the spec: the units of [intervalType] are listed as
    millisecond, hour, day, week, month and year. *)
Definition interval_type (v : str) : Decoded IntervalType :=
  if decide (v = u "millisecond") then Valid MILLISECOND
  else if decide (v = u "hour") then Valid HOUR
  else if decide (v = u "day") then Valid DAY
  else if decide (v = u "week") then Valid WEEK
  else if decide (v = u "month") then Valid MONTH
  else if decide (v = u "year") then Valid YEAR
  else Invalid
    "Input should be 'millisecond', 'hour', 'day', 'week', 'month' or 'year'".

(** Modelled from the spec: the glossary names sum, avg, min and max. *)
Definition aggregation_type (v : str) : Decoded Enums.AggregationType :=
  if decide (v = u "sum") then Valid Enums.SUM
  else if decide (v = u "avg") then Valid Enums.AVG
  else if decide (v = u "min") then Valid Enums.MIN
  else if decide (v = u "max") then Valid Enums.MAX
  else Invalid "Input should be 'sum', 'avg', 'min' or 'max'".

Definition time_zone (v : str) : Decoded Enums.Timezone :=
  if decide (v = u "UTC") then Valid "UTC"%string
  else Invalid "Input should be 'UTC'".

(** Decimal digits, one to three of them. *)
Definition small_int (v : str) : Decoded Z :=
  match digits (length v) v with
  | Some (n, []) =>
      if ((1 <=? length v) && (length v <=? 3))%nat then Valid n
      else Invalid
        "Input should be a valid integer, unable to parse string as an integer"
  | _ =>
      Invalid
        "Input should be a valid integer, unable to parse string as an integer"
  end.

Definition iso_date (v : str) : Decoded datetime :=
  match fromisoformat_extended v with
  | Some dt => Valid dt
  | None => Invalid "Invalid isoformat string"
  end.

Definition construct_raw :=
  construct_raw iso_date interval_type aggregation_type time_zone
    sort_direction small_int.

(** A limit above 500 and a sort direction that is none. *)
Definition sideways : RawQuery :=
  {| r_keys := Some (u "temp");
     r_startDate := Some (u "2021-01-01T00:00:00");
     r_endDate := Some (u "2022-01-01T00:00:00");
     r_intervalType := Some (u "day");
     r_interval := Some (u "1");
     r_agg := Some (u "avg");
     r_limit := Some (u "501");
     r_timezone := None;
     r_orderBy := Some (u "sideways") |}.

(** Daily averages of one key over a year. *)
Definition daily : RawQuery :=
  {| r_keys := Some (u "temp");
     r_startDate := Some (u "2021-01-01T00:00:00");
     r_endDate := Some (u "2022-01-01T00:00:00");
     r_intervalType := Some (u "day");
     r_interval := Some (u "1");
     r_agg := Some (u "avg");
     r_limit := None;
     r_timezone := None;
     r_orderBy := Some (u "desc") |}.

End SampleDecoders.

(** * Properties *)

Section KeySetParser.

Lemma is_space_comma c : is_space c = true → (c =? comma)%N = false.
Proof.
  intros Hsp. destruct (N.eqb_spec c comma) as [->|]; [|done].
  vm_compute in Hsp. discriminate.
Qed.

Lemma skip_space_length s : (length (skip_space s) <= length s)%nat.
Proof.
  induction s as [|c s IH]; simpl; [lia|].
  destruct (is_space c); simpl; lia.
Qed.

(** The star of white space before a pattern that no white space starts:
    the longest run is taken and nothing is given back. *)
Lemma star_space_then k fuel : ∀ s,
  (∀ c s', is_space c = true → k (c :: s') = None) →
  (length s <= fuel)%nat →
  star_loop (rmatch (Class is_space)) fuel s k = k (skip_space s).
Proof.
  induction fuel as [|fuel IH]; intros s Hk Hlen.
  - destruct s; [reflexivity | simpl in Hlen; lia].
  - destruct s as [|c s]; [reflexivity|].
    cbn [star_loop rmatch skip_space]. destruct (is_space c) eqn:Hsp; [|reflexivity].
    rewrite (proj2 (Nat.ltb_lt _ _)) by (simpl; lia).
    simpl in Hlen. rewrite IH by (done || lia).
    destruct (k (skip_space s)); [reflexivity|]. by apply Hk.
Qed.

(** The star of white space at the end of the pattern takes the longest
    run. *)
Lemma star_space_last fuel : ∀ s,
  (length s <= fuel)%nat →
  star_loop (rmatch (Class is_space)) fuel s Some = Some (skip_space s).
Proof.
  induction fuel as [|fuel IH]; intros s Hlen.
  - destruct s; [reflexivity | simpl in Hlen; lia].
  - destruct s as [|c s]; [reflexivity|].
    cbn [star_loop rmatch skip_space]. destruct (is_space c) eqn:Hsp; [|reflexivity].
    rewrite (proj2 (Nat.ltb_lt _ _)) by (simpl; lia).
    simpl in Hlen. by rewrite IH by lia.
Qed.

(** The backtracking match of the separator is the match found by hand. *)
Lemma rmatch_separator s : rmatch separator s Some = match_sep s.
Proof.
  unfold separator, match_sep. cbn [rmatch].
  rewrite star_space_then; [| |lia].
  - destruct (skip_space s) as [|c rest]; [reflexivity|].
    destruct (c =? comma)%N; [|reflexivity]. by apply star_space_last.
  - intros c s' Hsp. by rewrite (is_space_comma c Hsp).
Qed.

(** [match_sep] unfolded one character at a time. *)
Lemma match_sep_cons c s :
  match_sep (c :: s) =
    if is_space c then match_sep s
    else if (c =? comma)%N then Some (skip_space s) else None.
Proof.
  unfold match_sep. simpl. destruct (is_space c); reflexivity.
Qed.

Lemma match_sep_length s r :
  match_sep s = Some r → (length r < length s)%nat.
Proof.
  induction s as [|c s IH]; [discriminate|].
  rewrite match_sep_cons.
  destruct (is_space c).
  - intros H. apply IH in H. simpl. lia.
  - destruct (c =? comma)%N; [|discriminate].
    intros [= <-]. pose proof (skip_space_length s). simpl. lia.
Qed.

Lemma split_skip_space s :
  split_on_commas (skip_space s) =
    (skip_space (split_on_commas s).1, (split_on_commas s).2).
Proof.
  induction s as [|c s IH]; [reflexivity|].
  simpl. destruct (is_space c) eqn:Hsp.
  - rewrite IH. rewrite (is_space_comma c Hsp).
    destruct (split_on_commas s) as [p ps]. simpl. by rewrite Hsp.
  - simpl. destruct (split_on_commas s) as [p ps].
    destruct (c =? comma)%N; simpl; [done|]. by rewrite Hsp.
Qed.

(** Where the separator matches at the head, the fragment that ends there
    is blank and the scan resumes in the next fragment, past its leading
    white space. *)
Lemma match_sep_Some_split s r :
  match_sep s = Some r →
  ∃ p q qs, split_on_commas s = (p, q :: qs) ∧ rstrip p = []
            ∧ split_on_commas r = (skip_space q, qs).
Proof.
  revert r. induction s as [|c s IH]; intros r; [discriminate|].
  rewrite match_sep_cons. simpl.
  destruct (is_space c) eqn:Hsp.
  - intros H. destruct (IH r H) as (p & q & qs & Hs & Hp & Hr).
    rewrite Hs, (is_space_comma c Hsp).
    exists (c :: p), q, qs. simpl. by rewrite Hp, Hsp.
  - destruct (c =? comma)%N; [|discriminate].
    intros [= <-]. rewrite split_skip_space.
    destruct (split_on_commas s) as [p ps]. by exists [], p, ps.
Qed.

(** A blank fragment that a comma ends is swallowed by the separator. *)
Lemma blank_fragment_match_sep s p q qs :
  split_on_commas s = (p, q :: qs) → rstrip p = [] → is_Some (match_sep s).
Proof.
  revert p. induction s as [|c s IH]; intros p; [discriminate|].
  simpl. rewrite match_sep_cons.
  destruct (split_on_commas s) as [p' ps'].
  destruct (c =? comma)%N eqn:Hc.
  - intros _ _. destruct (is_space c) eqn:Hsp.
    + apply is_space_comma in Hsp. congruence.
    + by eexists.
  - intros [= <- ->]. simpl.
    destruct (rstrip p') eqn:Hp'; [|discriminate].
    destruct (is_space c); [|discriminate].
    intros _. by eapply IH.
Qed.

Lemma match_sep_None_split c s p q qs :
  match_sep (c :: s) = None →
  split_on_commas s = (p, q :: qs) →
  rstrip (c :: p) = c :: rstrip p.
Proof.
  intros Hm Hs. simpl.
  destruct (rstrip p) eqn:Hp; [|done].
  destruct (is_space c) eqn:Hsp; [|done].
  rewrite match_sep_cons, Hsp in Hm.
  destruct (blank_fragment_match_sep s p q qs Hs Hp) as [r Hr]. congruence.
Qed.

Lemma match_sep_None_comma c s :
  match_sep (c :: s) = None → (c =? comma)%N = false.
Proof.
  rewrite match_sep_cons.
  destruct (is_space c) eqn:Hsp; [by intros _; apply is_space_comma|].
  by destruct (c =? comma)%N.
Qed.

(** The scan against the split, with a fragment under way. *)
Lemma re_split_scan_split fuel : ∀ s cur,
  (length s < fuel)%nat →
  re_split_scan separator fuel s cur =
    match split_on_commas s with
    | (p, []) => [rev cur ++ p]
    | (p, q :: qs) => (rev cur ++ rstrip p) :: trim_after_comma q qs
    end.
Proof.
  induction fuel as [|fuel IH]; intros s cur Hlen; [lia|].
  cbn [re_split_scan]. rewrite rmatch_separator.
  destruct (match_sep s) as [r|] eqn:Hm.
  - destruct (match_sep_Some_split s r Hm) as (p & q & qs & Hs & Hp & Hr).
    pose proof (match_sep_length s r Hm).
    rewrite Hs, Hp, app_nil_r. f_equal.
    rewrite IH by lia. rewrite Hr. simpl.
    destruct qs; reflexivity.
  - destruct s as [|c s]; [by simpl; rewrite app_nil_r|].
    simpl in Hlen. rewrite IH by lia.
    pose proof (match_sep_None_comma c s Hm) as Hc.
    cbn [split_on_commas rev].
    destruct (split_on_commas s) as [p ps] eqn:Hs. rewrite Hc.
    destruct ps as [|q qs]; rewrite <- app_assoc; cbn [app].
    + reflexivity.
    + by rewrite (match_sep_None_split c s p q qs Hm Hs).
Qed.

Lemma re_split_comma_fragments value :
  re_split separator value = comma_fragments value.
Proof.
  unfold re_split, comma_fragments.
  rewrite re_split_scan_split by lia.
  destruct (split_on_commas value) as [p [|q qs]]; reflexivity.
Qed.

End KeySetParser.

(** ** The key-set parser *)

(** C3: for every raw key string the parser's fragments are those of a split
    on commas with the white space around each comma taken into the
    separator; the parser returns the set of the non-empty fragments, and it
    raises its error exactly when that set is empty. *)
Theorem keys_comma_separated_values_contract (value : str) :
  re_split separator value = comma_fragments value
  ∧ match keys_comma_separated_values value with
    | Ok ks =>
        ks = comma_key_set value ∧ ks ≠ ∅
        ∧ ∀ k, k ∈ ks ↔ k ≠ [] ∧ k ∈ comma_fragments value
    | Err e =>
        e = ValueError "At least one key is required" ∧ comma_key_set value = ∅
    end.
Proof.
  split; [apply re_split_comma_fragments|].
  unfold keys_comma_separated_values, comma_key_set.
  rewrite re_split_comma_fragments.
  destruct (decide _) as [Hempty|Hne].
  - split; [reflexivity | exact Hempty].
  - split; [reflexivity|]. split; [exact Hne|].
    intros k. rewrite elem_of_list_to_set, list_elem_of_filter. tauto.
Qed.

(** White space at the two ends of the whole string has no comma next to it
    and stays in the first and in the last fragment. *)
Example keys_outer_space :
  keys_comma_separated_values (u " temp ,humidity ")
    = Ok {[ u " temp"; u "humidity " ]}.
Proof. by vm_compute. Qed.

(** Commas alone leave no key. *)
Example keys_only_commas :
  keys_comma_separated_values (u ",, ,")
    = Err (ValueError "At least one key is required").
Proof. by vm_compute. Qed.

(** ** Dates and durations *)

Lemma lex_compare_refl a : lex_compare a a = Eq.
Proof.
  induction a as [|x a IH]; [reflexivity|].
  simpl. by rewrite Z.compare_refl.
Qed.

Lemma datetime_compare_refl a : datetime_compare a a = Eq.
Proof. apply lex_compare_refl. Qed.

Lemma datetime_compare_next_microsecond a :
  datetime_compare a (next_microsecond a) = Lt.
Proof.
  unfold datetime_compare, wall_clock. simpl.
  rewrite !Z.compare_refl.
  by rewrite (proj2 (Z.compare_lt_iff _ _)) by lia.
Qed.

Lemma datetime_ge_lt a b : datetime_ge a b = negb (datetime_lt a b).
Proof. unfold datetime_ge, datetime_lt. by destruct (datetime_compare a b). Qed.

(** Construction with in-range arguments gives the normal form of their
    sum. *)
Lemma timedelta_new_in_range d s us ms mi h w :
  let total :=
    us + 1000 * ms + 1000000 * (s + 60 * mi + 3600 * h + 86400 * (d + 7 * w)) in
  0 <= total < timedelta_limit →
  ∃ td, timedelta_new d s us ms mi h w = Ok td
        ∧ normalized td ∧ total_microseconds td = total.
Proof.
  intros total Hrange. unfold timedelta_new. fold total.
  unfold timedelta_limit, MAX_DELTA_DAYS in *.
  pose proof (Z.div_mod total 1000000 ltac:(lia)) as Ht.
  pose proof (Z.mod_pos_bound total 1000000 ltac:(lia)) as Htb.
  pose proof (Z.div_mod (total / 1000000) 86400 ltac:(lia)) as Hs.
  pose proof (Z.mod_pos_bound (total / 1000000) 86400 ltac:(lia)) as Hsb.
  set (q := total / 1000000) in *.
  set (dd := q / 86400) in *.
  assert (0 <= dd <= 999999999) as Hd by lia.
  rewrite (proj2 (Z.leb_le _ _)) by lia.
  eexists. split; [reflexivity|].
  unfold normalized, total_microseconds, MAX_DELTA_DAYS. simpl. lia.
Qed.

Lemma timedelta_new_overflow d s us ms mi h w :
  let total :=
    us + 1000 * ms + 1000000 * (s + 60 * mi + 3600 * h + 86400 * (d + 7 * w)) in
  timedelta_limit <= total →
  ∃ m, timedelta_new d s us ms mi h w = Err (OverflowError m).
Proof.
  intros total Hrange. unfold timedelta_new. fold total.
  unfold timedelta_limit, MAX_DELTA_DAYS in *.
  pose proof (Z.div_mod total 1000000 ltac:(lia)) as Ht.
  pose proof (Z.mod_pos_bound total 1000000 ltac:(lia)) as Htb.
  pose proof (Z.div_mod (total / 1000000) 86400 ltac:(lia)) as Hs.
  pose proof (Z.mod_pos_bound (total / 1000000) 86400 ltac:(lia)) as Hsb.
  set (q := total / 1000000) in *.
  set (dd := q / 86400) in *.
  rewrite (proj2 (Z.leb_gt _ _)) by lia.
  by eexists.
Qed.

(** A duration has one normal form. *)
Lemma normalized_unique a b :
  normalized a → normalized b →
  total_microseconds a = total_microseconds b → a = b.
Proof.
  destruct a as [da sa ua], b as [db sb ub].
  unfold normalized, total_microseconds. simpl.
  intros (? & ? & ?) (? & ? & ?) Heq.
  assert (da = db) by lia. assert (sa = sb) by lia. assert (ua = ub) by lia.
  by subst.
Qed.

(** ** The request object *)

Section DtoProperties.

Context {AggregationType Timezone SortDirection : Type}.
Variable fromisoformat : str → option datetime.

Local Abbreviation Query := (@Query AggregationType Timezone SortDirection).
Local Abbreviation Dto :=
  (@TimeseriesAggregationQueryDto AggregationType Timezone SortDirection).

(** What construction returns, check by check. *)
Lemma construct_cases (q : Query) :
  match transform_start_date fromisoformat (q_startDate q),
        transform_end_date fromisoformat (q_endDate q) with
  | Some s, Some e =>
      if keys_pattern (q_keys q) && numbers_in_range q then
        if datetime_ge s e then
          construct fromisoformat q = Err (ValidationError end_before_start)
        else if aggregation_complete q then
          construct fromisoformat q = Ok (dto_of q s e)
        else construct fromisoformat q = Err (ValidationError aggregation_incomplete)
      else raises_ValidationError (construct fromisoformat q) = true
  | _, _ => raises_ValidationError (construct fromisoformat q) = true
  end.
Proof.
  unfold construct, field_errors, check_keys, check_date,
    check_interval, check_limit, numbers_in_range, aggregation_complete,
    dto_of.
  destruct (transform_start_date fromisoformat (q_startDate q)) as [s|];
    destruct (transform_end_date fromisoformat (q_endDate q)) as [e|];
    destruct (keys_pattern (q_keys q));
    destruct (0 <=? default 0 (q_interval q));
    destruct (0 <=? default 100 (q_limit q));
    destruct (default 100 (q_limit q) <=? 500);
    try reflexivity.
  cbn [andb negb app field_error]. unfold validate_dto. cbn [start_date end_date interval interval_type agg].
  destruct (datetime_ge s e); [reflexivity|].
  destruct (default 0 (q_interval q) =? 0); [reflexivity|].
  destruct (q_intervalType q); [|reflexivity].
  destruct (q_agg q); reflexivity.
Qed.

Lemma construct_Ok_inv (q : Query) (d : Dto) :
  construct fromisoformat q = Ok d →
  ∃ s e, transform_start_date fromisoformat (q_startDate q) = Some s
         ∧ transform_end_date fromisoformat (q_endDate q) = Some e
         ∧ keys_pattern (q_keys q) = true ∧ numbers_in_range q = true
         ∧ datetime_lt s e = true ∧ aggregation_complete q = true
         ∧ d = dto_of q s e.
Proof.
  intros Hc. pose proof (construct_cases q) as H.
  destruct (transform_start_date fromisoformat (q_startDate q)) as [s|] eqn:Hs;
    [|rewrite Hc in H; discriminate].
  destruct (transform_end_date fromisoformat (q_endDate q)) as [e|] eqn:He;
    [|rewrite Hc in H; discriminate].
  destruct (keys_pattern (q_keys q)) eqn:Hk;
    [|rewrite Hc in H; discriminate].
  destruct (numbers_in_range q) eqn:Hn; [|rewrite Hc in H; discriminate].
  cbn [andb] in H. rewrite datetime_ge_lt in H.
  destruct (datetime_lt s e) eqn:Hlt; [|rewrite Hc in H; discriminate].
  cbn [negb] in H.
  destruct (aggregation_complete q) eqn:Ha;
    [|rewrite Hc in H; discriminate].
  exists s, e. repeat split; congruence.
Qed.

(** C1: a request without aggregation (no interval or interval 0, no
    interval type, no aggregation) whose fields are valid and whose dates
    are in order is not accepted: the second check of [validate_dto] fires
    whether or not aggregation is asked for. *)
Theorem construct_rejects_non_aggregate (q : Query) :
  keys_pattern (q_keys q) = true →
  numbers_in_range q = true →
  dates_in_order fromisoformat q = true →
  default 0 (q_interval q) = 0 →
  q_intervalType q = None →
  q_agg q = None →
  construct fromisoformat q = Err (ValidationError aggregation_incomplete).
Proof.
  intros Hk Hn Hd Hi Ht Ha. pose proof (construct_cases q) as H.
  unfold dates_in_order in Hd.
  destruct (transform_start_date fromisoformat (q_startDate q)) as [s|]; [|discriminate].
  destruct (transform_end_date fromisoformat (q_endDate q)) as [e|]; [|discriminate].
  rewrite Hk, Hn, datetime_ge_lt, Hd in H. cbn [andb negb] in H.
  unfold aggregation_complete in H. rewrite Hi in H. exact H.
Qed.

(** C2: in a request that is valid apart from the order of its dates,
    construction fails with a validation error whenever the start is not
    before the end, equal dates included, and succeeds whenever the start
    is before the end, be it by one microsecond. *)
Theorem construct_date_order (q : Query) (s e : datetime) :
  valid_apart_from_dates q = true →
  transform_start_date fromisoformat (q_startDate q) = Some s →
  transform_end_date fromisoformat (q_endDate q) = Some e →
  (datetime_ge s e = true → construct fromisoformat q = Err (ValidationError end_before_start))
  ∧ (datetime_lt s e = true → construct fromisoformat q = Ok (dto_of q s e))
  ∧ (s = e → raises_ValidationError (construct fromisoformat q) = true)
  ∧ (e = next_microsecond s → is_ok (construct fromisoformat q) = true).
Proof.
  intros Hv Hs He. pose proof (construct_cases q) as H.
  unfold valid_apart_from_dates in Hv.
  apply andb_prop in Hv as [Hv Ha]. rewrite Hs, He, Hv, Ha in H.
  assert (Hge : datetime_ge s e = true →
                construct fromisoformat q = Err (ValidationError end_before_start)).
  { intros Hge. by rewrite Hge in H. }
  assert (Hlt : datetime_lt s e = true → construct fromisoformat q = Ok (dto_of q s e)).
  { intros Hlt. by rewrite datetime_ge_lt, Hlt in H. }
  repeat split; [exact Hge | exact Hlt | |].
  - intros ->. rewrite Hge; [reflexivity|].
    unfold datetime_ge. by rewrite datetime_compare_refl.
  - intros ->. rewrite Hlt; [reflexivity|].
    unfold datetime_lt. by rewrite datetime_compare_next_microsecond.
Qed.

(** C4, as amended: the key-set parser maps the string
    ["temp, humidity,,temp"] to the set of [temp] and [humidity]; a request
    that carries this string as [keys] is refused by the pattern of the
    field, which admits no space; a request that carries
    ["temp,humidity,,temp"] and is otherwise valid is accepted, and its
    parsed key set is that of [temp] and [humidity]. *)
Theorem keys_example (q : Query) :
  valid_apart_from_keys fromisoformat q = true →
  keys_comma_separated_values (u "temp, humidity,,temp")
    = Ok {[ u "temp"; u "humidity" ]}
  ∧ (q_keys q = u "temp, humidity,,temp" →
     raises_ValidationError (construct fromisoformat q) = true)
  ∧ (q_keys q = u "temp,humidity,,temp" →
     ∃ d, construct fromisoformat q = Ok d ∧ keys d = Ok {[ u "temp"; u "humidity" ]}).
Proof.
  intros Hv. pose proof (construct_cases q) as H.
  unfold valid_apart_from_keys, dates_in_order in Hv.
  apply andb_prop in Hv as [Hv Hd]. apply andb_prop in Hv as [Hn Ha].
  destruct (transform_start_date fromisoformat (q_startDate q)) as [s|]; [|discriminate].
  destruct (transform_end_date fromisoformat (q_endDate q)) as [e|]; [|discriminate].
  rewrite Hn, Ha, datetime_ge_lt, Hd in H. cbn [negb] in H.
  split; [by vm_compute|]. split.
  - intros Hk. rewrite Hk in H. exact H.
  - intros Hk. rewrite Hk in H. exists (dto_of q s e).
    split; [exact H|]. unfold keys, dto_of. cbn [keys__]. rewrite Hk.
    by vm_compute.
Qed.

(** C5: where [fromisoformat] parses a string, both date validators return
    the parsed value with its time zone dropped and its wall clock as
    parsed; the string [2021-01-01T00:00:00+05:00] is normalised to the
    naive [2021-01-01T00:00:00]. *)
Theorem transform_dates_strip_tzinfo (value : str) (dt : datetime) :
  fromisoformat value = Some dt →
  (∃ naive, transform_start_date fromisoformat value = Some naive
            ∧ transform_end_date fromisoformat value = Some naive
            ∧ wall_clock naive = wall_clock dt
            ∧ tzinfo naive = None)
  ∧ transform_start_date fromisoformat_extended
      (u "2021-01-01T00:00:00+05:00") = Some Samples.new_year_2021
  ∧ transform_end_date fromisoformat_extended
      (u "2021-01-01T00:00:00+05:00") = Some Samples.new_year_2021.
Proof.
  intros Hp. split; [|split; by vm_compute].
  exists (replace_tzinfo dt None).
  unfold transform_start_date, transform_end_date.
  rewrite Hp. by repeat split.
Qed.

(** C7: on every object, [is_aggregate_query] is true exactly when the
    interval is positive, the interval type is present and the aggregation
    is present. *)
Theorem is_aggregate_query_iff (self : Dto) :
  is_aggregate_query self = true
  ↔ 0 < interval self ∧ interval_type self ≠ None ∧ agg self ≠ None.
Proof.
  unfold is_aggregate_query.
  rewrite !andb_true_iff, !bool_decide_eq_true, Z.ltb_lt. tauto.
Qed.

(** C10: an object that construction returns has a positive interval, an
    interval type and an aggregation; [is_aggregate_query] is true on it
    and [interval_in_timedelta] does not raise its error for a missing
    interval or interval type. *)
Theorem constructed_is_aggregate (q : Query) (d : Dto) :
  construct fromisoformat q = Ok d →
  0 < interval d ∧ interval_type d ≠ None ∧ agg d ≠ None
  ∧ is_aggregate_query d = true
  ∧ interval_in_timedelta d
      ≠ Err (ValueError "Interval and interval type must be provided").
Proof.
  intros Hc.
  destruct (construct_Ok_inv q d Hc)
    as (s & e & _ & _ & _ & Hn & _ & Ha & ->).
  unfold numbers_in_range in Hn. unfold aggregation_complete in Ha.
  rewrite !andb_true_iff in Hn. rewrite !andb_true_iff in Ha.
  destruct Hn as [[Hn _] _]. destruct Ha as [[Hz Ht] Hg].
  apply bool_decide_eq_true in Ht, Hg.
  apply negb_true_iff, Z.eqb_neq in Hz. apply Z.leb_le in Hn.
  assert (Hpos : 0 < interval (dto_of q s e)) by (cbn [dto_of interval]; lia).
  repeat split; try done.
  - unfold is_aggregate_query. cbn [dto_of interval interval_type agg].
    rewrite !andb_true_iff, !bool_decide_eq_true, Z.ltb_lt. done.
  - unfold interval_in_timedelta. cbn [dto_of interval interval_type].
    destruct (q_intervalType q) as [it|]; [|done].
    rewrite (proj2 (Z.eqb_neq _ _)) by done.
    destruct it; simpl; unfold timedelta_new;
      by destruct (Z.abs _ <=? MAX_DELTA_DAYS).
Qed.

Lemma interval_in_timedelta_missing (self : Dto) :
  interval_type self = None ∨ interval self = 0 →
  interval_in_timedelta self
    = Err (ValueError "Interval and interval type must be provided").
Proof.
  unfold interval_in_timedelta. intros [->| ->]; [reflexivity|].
  by destruct (interval_type self).
Qed.

(** Past the range of [timedelta] the resolution overflows. *)
Lemma interval_in_timedelta_overflow (self : Dto) (it : IntervalType) :
  interval_type self = Some it →
  timedelta_limit <= interval self * duration_table it →
  ∃ m, interval_in_timedelta self = Err (OverflowError m).
Proof.
  intros Hit Hr. unfold interval_in_timedelta. rewrite Hit.
  assert (interval self ≠ 0) as Hnz.
  { intros Hz. rewrite Hz in Hr. vm_compute in Hr. by apply Hr. }
  rewrite (proj2 (Z.eqb_neq _ _)) by done.
  destruct it; cbn [decide decide_rel IntervalType_eq_dec];
    simpl; apply timedelta_new_overflow;
    unfold duration_table in Hr; lia.
Qed.

(** C6, as amended: for every positive interval and present interval type
    whose duration lies within the range of [timedelta], the resolved
    duration is the interval times the unit of the table, in normal form;
    for day, week, month and year it is [interval], [7 * interval],
    [30 * interval] and [365 * interval] whole days, so two weeks are
    exactly 14 days; and the resolution raises its error when the interval
    type is absent or the interval is 0. *)
Theorem interval_in_timedelta_table (self : Dto) (it : IntervalType) :
  interval_type self = Some it →
  0 < interval self →
  interval self * duration_table it < timedelta_limit →
  (∃ td, interval_in_timedelta self = Ok td
         ∧ normalized td
         ∧ total_microseconds td = interval self * duration_table it
         ∧ (∀ k, (it, k) ∈ days_per_unit →
                 td = timedelta_of_days (k * interval self))
         ∧ (it = WEEK → interval self = 2 → td = timedelta_of_days 14))
  ∧ (∀ other : Dto,
       interval_type other = None ∨ interval other = 0 →
       interval_in_timedelta other
         = Err (ValueError "Interval and interval type must be provided")).
Proof.
  intros Hit Hpos Hr. split; [|apply interval_in_timedelta_missing].
  assert (∃ td, interval_in_timedelta self = Ok td ∧ normalized td
                ∧ total_microseconds td = interval self * duration_table it)
    as (td & Htd & Hnorm & Htot).
  { unfold interval_in_timedelta. rewrite Hit.
    rewrite (proj2 (Z.eqb_neq _ _)) by lia.
    destruct it; simpl;
      match goal with
      | |- ∃ td, timedelta_new ?d ?s ?us ?ms ?mi ?h ?w = _ ∧ _ =>
          destruct (timedelta_new_in_range d s us ms mi h w)
            as (td & Htd & Hnorm & Htot);
          [unfold duration_table in Hr; lia|];
          exists td; repeat split; try apply Hnorm; try exact Htd;
          rewrite Htot; unfold duration_table; lia
      end. }
  assert (Hdays : ∀ k, (it, k) ∈ days_per_unit →
                       td = timedelta_of_days (k * interval self)).
  { intros k Hk. apply normalized_unique; [exact Hnorm| |].
    - unfold days_per_unit in Hk. rewrite !elem_of_cons, elem_of_nil in Hk.
      unfold timedelta_limit, MAX_DELTA_DAYS in Hr.
      unfold normalized, timedelta_of_days, MAX_DELTA_DAYS. simpl.
      destruct Hk as [[= -> ->]|[[= -> ->]|[[= -> ->]|[[= -> ->]|[]]]]];
        unfold duration_table in Hr; lia.
    - rewrite Htot. unfold days_per_unit in Hk.
      rewrite !elem_of_cons, elem_of_nil in Hk.
      unfold total_microseconds, timedelta_of_days. simpl.
      destruct Hk as [[= -> ->]|[[= -> ->]|[[= -> ->]|[[= -> ->]|[]]]]];
        unfold duration_table; lia. }
  exists td. repeat split; try apply Hnorm; try done.
  intros -> H2. rewrite (Hdays 7); [by rewrite H2|].
  unfold days_per_unit. rewrite !elem_of_cons. auto.
Qed.

End DtoProperties.

(** *** The statements at the sample requests *)

(** The request for raw points is turned down. *)
Lemma construct_rejects_non_aggregate_raw_points :
  construct fromisoformat_extended Samples.raw_points
    = Err (ValidationError aggregation_incomplete).
Proof.
  apply (construct_rejects_non_aggregate fromisoformat_extended Samples.raw_points);
    reflexivity.
Defined.

(** The shortest window, one microsecond, is accepted. *)
Lemma construct_date_order_shortest :
  is_ok (construct fromisoformat_extended Samples.shortest) = true.
Proof.
  refine (proj2 (proj2 (proj2
    (construct_date_order fromisoformat_extended Samples.shortest
       Samples.new_year_2021 (next_microsecond Samples.new_year_2021)
       _ _ _))) _); reflexivity.
Defined.

(** C4 as stated does not hold: the request whose [keys] is
    ["temp, humidity,,temp"] and whose other fields are valid is refused,
    the space being outside the pattern of the field. *)
Lemma spaced_keys_refused :
  valid_apart_from_keys fromisoformat_extended Samples.weekly_spaced = true
  ∧ q_keys Samples.weekly_spaced = u "temp, humidity,,temp"
  ∧ construct fromisoformat_extended Samples.weekly_spaced
      = Err (ValidationError
               (field_error "keys"
                  "String should match pattern '^[a-zA-Z0-9_,-]+$'")).
Proof. repeat split; vm_compute; reflexivity. Qed.

(** The request without the space is accepted with both keys. *)
Lemma keys_example_weekly :
  ∃ d, construct fromisoformat_extended Samples.weekly = Ok d
       ∧ keys d = Ok {[ u "temp"; u "humidity" ]}.
Proof.
  refine (proj2 (proj2
    (keys_example fromisoformat_extended Samples.weekly _)) _); reflexivity.
Defined.

(** The start of the weekly request loses its offset of five hours. *)
Lemma transform_dates_strip_tzinfo_weekly :
  ∃ naive,
    transform_start_date fromisoformat_extended (q_startDate Samples.weekly)
      = Some naive
    ∧ transform_end_date fromisoformat_extended (q_startDate Samples.weekly)
      = Some naive
    ∧ wall_clock naive = [2021; 1; 1; 0; 0; 0; 0]
    ∧ tzinfo naive = None.
Proof.
  refine (proj1
    (transform_dates_strip_tzinfo fromisoformat_extended
       (q_startDate Samples.weekly)
       (replace_tzinfo Samples.new_year_2021 (Some 18000000000)) _));
    reflexivity.
Defined.

(** C6 as stated does not hold: an interval of 1000000000 days is
    positive and its type is present, yet no duration is resolved. *)
Lemma interval_in_timedelta_overflows :
  0 < interval (Samples.with_interval (Some DAY) 1000000000)
  ∧ interval_type (Samples.with_interval (Some DAY) 1000000000) = Some DAY
  ∧ is_ok (interval_in_timedelta
             (Samples.with_interval (Some DAY) 1000000000)) = false
  ∧ interval_in_timedelta (Samples.with_interval (Some DAY) 1000000000)
      = Err (OverflowError
               "days=1000000000; must have magnitude <= 999999999").
Proof. repeat split; vm_compute; reflexivity. Qed.

(** Two weeks are 14 days. *)
Lemma interval_in_timedelta_two_weeks :
  ∃ td, interval_in_timedelta (Samples.with_interval (Some WEEK) 2) = Ok td
        ∧ td = timedelta_of_days 14.
Proof.
  destruct (proj1 (interval_in_timedelta_table
                     (Samples.with_interval (Some WEEK) 2) WEEK
                     eq_refl eq_refl eq_refl))
    as (td & Htd & _ & _ & _ & Hweek).
  exists td. split; [exact Htd | exact (Hweek eq_refl eq_refl)].
Defined.

(** The weekly request, once constructed, is an aggregate query. *)
Lemma constructed_is_aggregate_weekly :
  is_aggregate_query
    (dto_of Samples.weekly Samples.new_year_2021 Samples.new_year_2022) = true.
Proof.
  refine (proj1 (proj2 (proj2 (proj2
    (constructed_is_aggregate fromisoformat_extended Samples.weekly
       (dto_of Samples.weekly Samples.new_year_2021 Samples.new_year_2022)
       _))))); reflexivity.
Defined.

(** ** The data migration *)

Section SeedProperties.

Import Migration.

Variable TEAM_ROLE_OWNER : string.
Variables READ MANAGE DELETE : PermissionSpec.

Local Abbreviation upgrade := (upgrade TEAM_ROLE_OWNER READ MANAGE DELETE).
Local Abbreviation downgrade := (downgrade TEAM_ROLE_OWNER READ MANAGE DELETE).
Local Abbreviation owners := (role_owner_ids_stmt TEAM_ROLE_OWNER).
Local Abbreviation seeded_links :=
  (seeded_links TEAM_ROLE_OWNER READ MANAGE DELETE).
Local Abbreviation one_owner := (one_owner TEAM_ROLE_OWNER).

Lemma filter_all {A} (P : A → Prop) `{!∀ x, Decision (P x)} (l : list A) :
  (∀ x, x ∈ l → P x) → filter P l = l.
Proof.
  induction l as [|x l IH]; intros Hall; [reflexivity|].
  rewrite filter_cons_True by (apply Hall; left).
  f_equal. apply IH. intros y Hy. apply Hall. by right.
Qed.

Lemma filter_none {A} (P : A → Prop) `{!∀ x, Decision (P x)} (l : list A) :
  (∀ x, x ∈ l → ¬ P x) → filter P l = [].
Proof.
  induction l as [|x l IH]; intros Hall; [reflexivity|].
  rewrite filter_cons_False by (apply Hall; left).
  apply IH. intros y Hy. apply Hall. by right.
Qed.

(** The tables after [upgrade]. *)
Lemma upgrade_tables (s : Store) :
  permission_table (upgrade s)
    = permission_table s
      ++ flush (permission_id_seq s) (permissions READ MANAGE DELETE)
  ∧ role_table (upgrade s) = role_table s
  ∧ role_permission_table (upgrade s)
    = role_permission_table s ++ seeded_links s
  ∧ permission_id_seq (upgrade s) = permission_id_seq s + 3.
Proof.
  unfold Migration.upgrade, Migration.seeded_links, Migration.role_owner_ids_stmt. cbn [role_table].
  destruct (_ ≫= _) eqn:Hv; cbn; rewrite ?app_nil_r; done.
Qed.

Lemma flush_scope next objs p :
  p ∈ flush next objs → scope p ∈ spec_scope <$> objs.
Proof.
  revert next. induction objs as [|o objs IH]; intros next; simpl.
  - by rewrite elem_of_nil.
  - rewrite !elem_of_cons. intros [->|Hp]; [by left|].
    right. by eapply IH.
Qed.

Lemma flush_id next objs p :
  p ∈ flush next objs → next <= id p.
Proof.
  revert next. induction objs as [|o objs IH]; intros next; simpl.
  - by rewrite elem_of_nil.
  - rewrite elem_of_cons. intros [->|Hp]; [simpl; lia|].
    apply IH in Hp. lia.
Qed.

Lemma seeded_links_elem (s : Store) rp :
  rp ∈ seeded_links s →
  role_id rp ∈ owners s
  ∧ ∃ p, p ∈ flush (permission_id_seq s) (permissions READ MANAGE DELETE)
         ∧ permission_id rp = id p.
Proof.
  unfold Migration.seeded_links. rewrite list_elem_of_bind.
  intros (p & Hrp & Hp). rewrite list_elem_of_bind in Hrp.
  destruct Hrp as (r & Hrp & Hr).
  apply list_elem_of_singleton in Hrp as ->. simpl. eauto.
Qed.

Lemma seeded_links_length (s : Store) :
  length (seeded_links s) = (3 * length (owners s))%nat.
Proof.
  unfold Migration.seeded_links, permissions. cbn [flush].
  rewrite !bind_cons, !length_app. cbn [mbind list_bind].
  assert (∀ (i : Z) (l : list Z),
    length (l ≫= λ role_id, [{| role_id := role_id; permission_id := i |}])
      = length l) as Hlen.
  { intros i l. induction l as [|x l IH]; [reflexivity|].
    rewrite bind_cons. simpl. by rewrite IH. }
  cbn [id]. rewrite !Hlen. simpl. lia.
Qed.




(** A second [upgrade] adds three association rows for every owner role. *)
Lemma upgrade_upgrade_length (s : Store) :
  length (role_permission_table (upgrade (upgrade s)))
    = (length (role_permission_table (upgrade s)) + 3 * length (owners s))%nat.
Proof.
  destruct (upgrade_tables (upgrade s)) as (_ & _ & Hrp & _).
  destruct (upgrade_tables s) as (_ & Hr & _ & _).
  rewrite Hrp, length_app, seeded_links_length.
  unfold Migration.role_owner_ids_stmt. by rewrite Hr.
Qed.

(** C9: [upgrade] is not idempotent: a second run without a rollback adds
    three association rows for every role of the owner name, and on the
    store that holds one such role it leaves a state other than that of the
    first run, with twice the association rows, every link of the role to a
    seeded scope now held twice. *)
Theorem upgrade_not_idempotent :
  (∀ s : Store,
     length (role_permission_table (upgrade (upgrade s)))
       = (length (role_permission_table (upgrade s))
          + 3 * length (owners s))%nat)
  ∧ ∃ s : Store,
      (∃ r, r ∈ role_table s ∧ name r = TEAM_ROLE_OWNER)
      ∧ upgrade (upgrade s) ≠ upgrade s
      ∧ length (role_permission_table (upgrade (upgrade s)))
        = (2 * length (role_permission_table (upgrade s)))%nat
      ∧ links (upgrade (upgrade s)) = links (upgrade s) ++ links (upgrade s)
      ∧ links (upgrade s) ≠ [].
Proof.
  split; [exact upgrade_upgrade_length|].
  exists one_owner.
  assert (H1 : upgrade one_owner =
    {| permission_table := flush 1 (permissions READ MANAGE DELETE);
       role_table := role_table one_owner;
       role_permission_table :=
         [{| role_id := 1; permission_id := 1 |};
          {| role_id := 1; permission_id := 2 |};
          {| role_id := 1; permission_id := 3 |}];
       permission_id_seq := 4 |}).
  { unfold Migration.upgrade, Migration.role_owner_ids_stmt, Migration.one_owner.
    cbn [role_table]. rewrite filter_cons_True by done. reflexivity. }
  assert (H2 : upgrade (upgrade one_owner) =
    {| permission_table :=
         flush 1 (permissions READ MANAGE DELETE)
         ++ flush 4 (permissions READ MANAGE DELETE);
       role_table := role_table one_owner;
       role_permission_table :=
         [{| role_id := 1; permission_id := 1 |};
          {| role_id := 1; permission_id := 2 |};
          {| role_id := 1; permission_id := 3 |};
          {| role_id := 1; permission_id := 4 |};
          {| role_id := 1; permission_id := 5 |};
          {| role_id := 1; permission_id := 6 |}];
       permission_id_seq := 7 |}).
  { rewrite H1.
    unfold Migration.upgrade, Migration.role_owner_ids_stmt, Migration.one_owner.
    cbn [role_table]. rewrite filter_cons_True by done. reflexivity. }
  split; [exists {| role_ident := 1; name := TEAM_ROLE_OWNER |};
          split; [by left | reflexivity]|].
  rewrite H2, H1. repeat split; try done.
Qed.

End SeedProperties.



(** ** More on the key-set parser *)

Section KeySetFacts.

Lemma elem_of_skip_space c s : c ∈ skip_space s → c ∈ s.
Proof.
  induction s as [|x s IH]; simpl; [done|].
  destruct (is_space x); [|done]. intros H. right. by apply IH.
Qed.

Lemma elem_of_rstrip c s : c ∈ rstrip s → c ∈ s.
Proof.
  induction s as [|x s IH]; simpl; [done|].
  destruct (rstrip s) as [|y r].
  - destruct (is_space x); [by rewrite elem_of_nil|].
    rewrite list_elem_of_singleton. intros ->. by left.
  - intros [->|H]%elem_of_cons; [by left|]. right. by apply IH.
Qed.

(** The characters of the input, fragment by fragment, comma aside. *)
Lemma split_on_commas_chars s p ps :
  split_on_commas s = (p, ps) →
  ∀ k, k ∈ p :: ps → ∀ c, c ∈ k → c ∈ s ∧ c ≠ comma.
Proof.
  revert p ps. induction s as [|x s IH]; intros p ps; simpl.
  - intros [= <- <-] k Hk c Hc.
    apply list_elem_of_singleton in Hk as ->. by apply elem_of_nil in Hc.
  - destruct (split_on_commas s) as [p' ps'].
    specialize (IH p' ps' eq_refl).
    destruct (N.eqb_spec x comma) as [->|Hx]; intros [= <- <-] k Hk c Hc.
    + apply elem_of_cons in Hk as [->|Hk]; [by apply elem_of_nil in Hc|].
      destruct (IH k Hk c Hc). split; [by right | done].
    + apply elem_of_cons in Hk as [->|Hk].
      * apply elem_of_cons in Hc as [->|Hc]; [split; [by left | done]|].
        destruct (IH p' ltac:(by left) c Hc). split; [by right | done].
      * destruct (IH k ltac:(by right) c Hc). split; [by right | done].
Qed.

Lemma trim_after_comma_chars q qs k :
  k ∈ trim_after_comma q qs → ∃ k', k' ∈ q :: qs ∧ ∀ c, c ∈ k → c ∈ k'.
Proof.
  revert q. induction qs as [|q' qs IH]; intros q; simpl.
  - rewrite list_elem_of_singleton. intros ->.
    exists q. split; [by left|]. intros c. apply elem_of_skip_space.
  - rewrite elem_of_cons. intros [->|Hk].
    + exists q. split; [by left|]. intros c Hc.
      by apply elem_of_skip_space, elem_of_rstrip.
    + destruct (IH q' Hk) as (k' & Hk' & Hsub).
      exists k'. split; [by right | done].
Qed.

Lemma comma_fragments_chars s k :
  k ∈ comma_fragments s → ∀ c, c ∈ k → c ∈ s ∧ c ≠ comma.
Proof.
  unfold comma_fragments.
  destruct (split_on_commas s) as [p ps] eqn:Hs.
  pose proof (split_on_commas_chars s p ps Hs) as Hch.
  destruct ps as [|q qs].
  - rewrite list_elem_of_singleton. intros -> c Hc.
    apply (Hch p); [by left | done].
  - rewrite elem_of_cons. intros [->|Hk] c Hc.
    + apply (Hch p); [by left|]. by apply elem_of_rstrip.
    + destruct (trim_after_comma_chars q qs k Hk) as (k' & Hk' & Hsub).
      apply (Hch k'); [by right|]. by apply Hsub.
Qed.

Lemma keys_found_comma_key_set value : keys_found value = comma_key_set value.
Proof.
  unfold keys_found, keys_comma_separated_values, comma_key_set.
  rewrite re_split_comma_fragments. by destruct (decide _) as [->|].
Qed.

Lemma keys_Ok_found value ks :
  keys_comma_separated_values value = Ok ks → ks = comma_key_set value.
Proof.
  intros H. rewrite <- keys_found_comma_key_set. unfold keys_found.
  by rewrite H.
Qed.

Lemma elem_of_comma_key_set k s :
  k ∈ comma_key_set s ↔ k ≠ [] ∧ k ∈ comma_fragments s.
Proof.
  unfold comma_key_set. by rewrite elem_of_list_to_set, list_elem_of_filter.
Qed.

(** X1: a key that the parser returns is not empty, holds no comma and is
    made of characters of the input. *)
Theorem keys_are_proper (value : str) (ks : gset str) (k : str) :
  keys_comma_separated_values value = Ok ks →
  k ∈ ks →
  k ≠ [] ∧ (comma ∉ k) ∧ ∀ c, c ∈ k → c ∈ value.
Proof.
  intros Hks Hk. apply keys_Ok_found in Hks as ->.
  apply elem_of_comma_key_set in Hk as [Hne Hk].
  pose proof (comma_fragments_chars value k Hk) as Hch.
  split; [done|]. split.
  - intros Hc. by destruct (Hch comma Hc).
  - intros c Hc. by destruct (Hch c Hc).
Qed.

(** Without white space nothing is trimmed. *)
Lemma skip_space_no_space s : no_space s = true → skip_space s = s.
Proof.
  destruct s as [|c s]; [done|]. simpl.
  by destruct (is_space c).
Qed.

Lemma rstrip_no_space s : no_space s = true → rstrip s = s.
Proof.
  induction s as [|c s IH]; [done|]. simpl.
  destruct (is_space c); [done|]. simpl. intros Hs.
  rewrite IH by done. by destruct s.
Qed.

Lemma split_on_commas_no_space s p ps :
  no_space s = true → split_on_commas s = (p, ps) →
  no_space p = true ∧ Forall (λ q, no_space q = true) ps.
Proof.
  revert p ps. induction s as [|c s IH]; intros p ps; simpl.
  - by intros _ [= <- <-].
  - destruct (is_space c) eqn:Hsp; [done|]. simpl. intros Hs.
    destruct (split_on_commas s) as [p' ps'].
    destruct (IH p' ps' Hs eq_refl) as [Hp Hps].
    destruct (c =? comma)%N; intros [= <- <-].
    + split; [done|]. by constructor.
    + split; [|done]. simpl. by rewrite Hsp.
Qed.

Lemma trim_after_comma_no_space q qs :
  no_space q = true → Forall (λ q, no_space q = true) qs →
  trim_after_comma q qs = q :: qs.
Proof.
  revert q. induction qs as [|q' qs IH]; intros q Hq Hqs; simpl.
  - unfold lstrip. by rewrite skip_space_no_space.
  - apply Forall_cons in Hqs as [Hq' Hqs]. unfold lstrip.
    rewrite skip_space_no_space, rstrip_no_space by done.
    by rewrite IH.
Qed.

(** The fragments of a string without white space are those of the plain
    split. *)
Lemma comma_fragments_no_space s :
  no_space s = true →
  comma_fragments s = (split_on_commas s).1 :: (split_on_commas s).2.
Proof.
  intros Hs. unfold comma_fragments.
  destruct (split_on_commas s) as [p ps] eqn:Hsp.
  destruct (split_on_commas_no_space s p ps Hs Hsp) as [Hp Hps].
  destruct ps as [|q qs]; [done|]. simpl.
  apply Forall_cons in Hps as [Hq Hqs].
  by rewrite rstrip_no_space, trim_after_comma_no_space.
Qed.

Lemma split_on_commas_app a b :
  split_on_commas (a ++ comma :: b) =
    ((split_on_commas a).1,
     (split_on_commas a).2 ++ (split_on_commas b).1 :: (split_on_commas b).2).
Proof.
  induction a as [|c a IH]; simpl.
  - by destruct (split_on_commas b).
  - rewrite IH. destruct (split_on_commas a) as [p ps]. simpl.
    by destruct (c =? comma)%N.
Qed.

Lemma no_space_app a b :
  no_space a = true → no_space b = true → no_space (a ++ comma :: b) = true.
Proof.
  unfold no_space. intros Ha Hb. rewrite forallb_app, Ha. simpl. by rewrite Hb.
Qed.

Lemma keys_found_joined a b :
  no_space a = true → no_space b = true →
  keys_found (a ++ comma :: b) = keys_found a ∪ keys_found b.
Proof.
  intros Ha Hb. rewrite !keys_found_comma_key_set. unfold comma_key_set.
  rewrite !comma_fragments_no_space by (done || by apply no_space_app).
  rewrite split_on_commas_app. simpl.
  rewrite app_comm_cons, filter_app, list_to_set_app_L. done.
Qed.

(** X2: for lists of keys without white space, the keys of two lists
    joined by a comma are the keys of the one and of the other; so the order
    of the lists does not matter and a list joined to itself adds no key. *)
Theorem keys_of_joined (a b : str) :
  no_space a = true →
  no_space b = true →
  keys_found (a ++ comma :: b) = keys_found a ∪ keys_found b
  ∧ keys_found (b ++ comma :: a) = keys_found (a ++ comma :: b)
  ∧ keys_found (a ++ comma :: a) = keys_found a.
Proof.
  intros Ha Hb. rewrite !keys_found_joined by done.
  split; [reflexivity|]. split.
  - apply union_comm_L.
  - apply union_idemp_L.
Qed.

Lemma keys_char_not_space c : keys_char c = true → is_space c = false.
Proof.
  unfold keys_char, is_space. intros H. apply not_true_is_false. intros H'.
  rewrite !orb_true_iff, !andb_true_iff, !N.leb_le, !N.eqb_eq in H.
  rewrite !orb_true_iff, !andb_true_iff, !N.leb_le, !N.eqb_eq in H'.
  lia.
Qed.

Lemma keys_pattern_chars s :
  keys_pattern s = true → s ≠ [] ∧ ∀ c, c ∈ s → keys_char c = true.
Proof.
  unfold keys_pattern. destruct s as [|x s]; [done|].
  intros H. split; [done|]. intros c Hc.
  rewrite forallb_forall in H. apply H. by apply list_elem_of_In.
Qed.

Lemma keys_pattern_no_space s : keys_pattern s = true → no_space s = true.
Proof.
  intros H. destruct (keys_pattern_chars s H) as [_ Hch].
  unfold no_space. apply forallb_forall. intros c Hc.
  apply list_elem_of_In in Hc. by rewrite (keys_char_not_space c (Hch c Hc)).
Qed.

(** The fragments of the plain split are all empty exactly in a string of
    commas. *)
Lemma split_on_commas_empty s :
  (∀ k, k ∈ (split_on_commas s).1 :: (split_on_commas s).2 → k = [])
  ↔ only_commas s = true.
Proof.
  induction s as [|c s IH]; simpl.
  - split; [done|]. intros _ k Hk. by apply list_elem_of_singleton in Hk.
  - destruct (split_on_commas s) as [p ps]. simpl in IH.
    destruct (c =? comma)%N; simpl.
    + rewrite <- IH. split.
      * intros H k Hk. apply H. by right.
      * intros H k Hk. apply elem_of_cons in Hk as [->|Hk]; [done|]. by apply H.
    + split; [|done]. intros H. specialize (H (c :: p)).
      discriminate H. by left.
Qed.

Lemma comma_key_set_empty s :
  no_space s = true → (comma_key_set s = ∅ ↔ only_commas s = true).
Proof.
  intros Hs. rewrite <- split_on_commas_empty.
  rewrite <- comma_fragments_no_space by done. split.
  - intros He k Hk. destruct (decide (k = [])) as [|Hne]; [done|].
    assert (k ∈ comma_key_set s) as Hin by by apply elem_of_comma_key_set.
    rewrite He in Hin. by apply not_elem_of_empty in Hin.
  - intros H. apply set_eq. intros k. rewrite elem_of_comma_key_set.
    split; [|by intros ?%not_elem_of_empty].
    intros [Hne Hk]. by apply H in Hk.
Qed.

End KeySetFacts.

(** ** More on the request object *)

Section DtoFacts.

Context {AggregationType Timezone SortDirection : Type}.
Variable fromisoformat : str → option datetime.

Local Abbreviation Query := (@Query AggregationType Timezone SortDirection).
Local Abbreviation Dto :=
  (@TimeseriesAggregationQueryDto AggregationType Timezone SortDirection).

Lemma transform_start_date_Some value s :
  transform_start_date fromisoformat value = Some s →
  ∃ dt, fromisoformat value = Some dt ∧ s = replace_tzinfo dt None.
Proof.
  unfold transform_start_date. destruct (fromisoformat value) as [dt|]; [|done].
  intros [= <-]. by exists dt.
Qed.

Lemma transform_end_date_Some value e :
  transform_end_date fromisoformat value = Some e →
  ∃ dt, fromisoformat value = Some dt ∧ e = replace_tzinfo dt None.
Proof.
  unfold transform_end_date. destruct (fromisoformat value) as [dt|]; [|done].
  intros [= <-]. by exists dt.
Qed.

Lemma keys_Err_iff value e :
  keys_comma_separated_values value = Err e
  ↔ e = ValueError "At least one key is required" ∧ comma_key_set value = ∅.
Proof.
  unfold keys_comma_separated_values, comma_key_set.
  rewrite re_split_comma_fragments.
  destruct (decide _) as [He|Hne]; split; try done.
  - by intros [= <-].
  - by intros [-> _].
  - by intros [_ ?].
Qed.

(** X3: the keys of an object that construction returns are not empty and
    are made of letters, digits, underscores and hyphens. *)
Theorem constructed_keys_chars (q : Query) (d : Dto) (ks : gset str) (k : str) :
  construct fromisoformat q = Ok d →
  keys d = Ok ks →
  k ∈ ks →
  k ≠ [] ∧ ∀ c, c ∈ k → keys_char c = true ∧ c ≠ comma ∧ is_space c = false.
Proof.
  intros Hc Hks Hk.
  destruct (construct_Ok_inv fromisoformat q d Hc)
    as (s & e & _ & _ & Hpat & _ & _ & _ & ->).
  unfold keys, dto_of in Hks. cbn [keys__] in Hks.
  apply keys_Ok_found in Hks as ->.
  apply elem_of_comma_key_set in Hk as [Hne Hk].
  split; [done|]. intros c Hin.
  destruct (comma_fragments_chars (q_keys q) k Hk c Hin) as [Hcq Hcomma].
  destruct (keys_pattern_chars (q_keys q) Hpat) as [_ Hch].
  repeat split; [by apply Hch | done | by apply keys_char_not_space, Hch].
Qed.

(** X4: construction does not look for keys: on an object that it returns,
    the computed field [keys] raises its error exactly when the [keys]
    parameter holds commas only, and gives a set that is not empty
    otherwise. *)
Theorem constructed_keys_raise (q : Query) (d : Dto) :
  construct fromisoformat q = Ok d →
  (keys d = Err (ValueError "At least one key is required")
   ↔ only_commas (q_keys q) = true)
  ∧ (only_commas (q_keys q) = false → ∃ ks, keys d = Ok ks ∧ ks ≠ ∅).
Proof.
  intros Hc.
  destruct (construct_Ok_inv fromisoformat q d Hc)
    as (s & e & _ & _ & Hpat & _ & _ & _ & ->).
  unfold keys, dto_of. cbn [keys__].
  pose proof (comma_key_set_empty (q_keys q) (keys_pattern_no_space _ Hpat))
    as Hempty.
  split.
  - rewrite keys_Err_iff, Hempty. tauto.
  - intros Hno.
    destruct (keys_comma_separated_values (q_keys q)) as [ks|e'] eqn:Hk.
    + exists ks. split; [done|]. intros ->.
      apply keys_Ok_found in Hk. symmetry in Hk. apply Hempty in Hk. congruence.
    + apply keys_Err_iff in Hk as [_ Hk]. apply Hempty in Hk. congruence.
Qed.

(** X5: the window is judged on the wall clocks alone: a request is accepted
    only if the wall clock of its start, as written, lies before that of its
    end, and two dates with the same wall clock are refused whatever their
    offsets. *)
Theorem window_by_wall_clock (q : Query) (s e : datetime) :
  fromisoformat (q_startDate q) = Some s →
  fromisoformat (q_endDate q) = Some e →
  (is_ok (construct fromisoformat q) = true →
   lex_compare (wall_clock s) (wall_clock e) = Lt)
  ∧ (wall_clock s = wall_clock e →
     raises_ValidationError (construct fromisoformat q) = true).
Proof.
  intros Hs He. pose proof (construct_cases fromisoformat q) as H.
  assert (transform_start_date fromisoformat (q_startDate q)
          = Some (replace_tzinfo s None)) as Hts
    by (unfold transform_start_date; by rewrite Hs).
  assert (transform_end_date fromisoformat (q_endDate q)
          = Some (replace_tzinfo e None)) as Hte
    by (unfold transform_end_date; by rewrite He).
  rewrite Hts, Hte in H.
  assert (datetime_compare (replace_tzinfo s None) (replace_tzinfo e None)
          = lex_compare (wall_clock s) (wall_clock e)) as Hcmp by reflexivity.
  unfold datetime_ge in H. rewrite Hcmp in H.
  destruct (keys_pattern (q_keys q) && numbers_in_range q).
  - split.
    + intros Hok.
      destruct (lex_compare (wall_clock s) (wall_clock e));
        [by rewrite H in Hok | done | by rewrite H in Hok].
    + intros Heq. rewrite Heq, lex_compare_refl in H. by rewrite H.
  - split; [|done]. intros Hok.
    by destruct (construct fromisoformat q) as [|[]].
Qed.

(** X6: the dates of an object that construction returns are what the
    dependencies [start_date_value] and [end_date_value] make of the parsed
    strings, and the dependencies leave them as they are. *)
Theorem constructed_dates_normal (q : Query) (d : Dto) :
  construct fromisoformat q = Ok d →
  (∃ s e, fromisoformat (q_startDate q) = Some s
          ∧ fromisoformat (q_endDate q) = Some e
          ∧ start_date d = start_date_value s
          ∧ end_date d = end_date_value e)
  ∧ start_date_value (start_date d) = start_date d
  ∧ end_date_value (end_date d) = end_date d.
Proof.
  intros Hc.
  destruct (construct_Ok_inv fromisoformat q d Hc)
    as (s & e & Hs & He & _ & _ & _ & _ & ->).
  apply transform_start_date_Some in Hs as (s0 & Hs0 & ->).
  apply transform_end_date_Some in He as (e0 & He0 & ->).
  split; [by exists s0, e0|]. done.
Qed.

(** Once the parameters are decoded, construction succeeds exactly when the
    keys match the pattern, the interval and the limit are within bounds,
    both dates parse with the start before the end, and interval, interval
    type and aggregation are all given. *)
Lemma construct_accepts_iff (q : Query) :
  is_ok (construct fromisoformat q)
  = keys_pattern (q_keys q) && numbers_in_range q
    && dates_in_order fromisoformat q && aggregation_complete q.
Proof.
  pose proof (construct_cases fromisoformat q) as H. unfold dates_in_order.
  destruct (transform_start_date fromisoformat (q_startDate q)) as [s|].
  2: { rewrite andb_false_r.
       by destruct (construct fromisoformat q) as [|[]]. }
  destruct (transform_end_date fromisoformat (q_endDate q)) as [e|].
  2: { rewrite andb_false_r.
       by destruct (construct fromisoformat q) as [|[]]. }
  destruct (keys_pattern (q_keys q) && numbers_in_range q).
  - rewrite datetime_ge_lt in H. destruct (datetime_lt s e); simpl in *.
    + by destruct (aggregation_complete q); rewrite H.
    + by rewrite H.
  - by destruct (construct fromisoformat q) as [|[]].
Qed.

(** X8: an object that construction returns has keys that match the
    pattern, naive dates with the start before the end, and a limit from 0
    to 500, which is 100 where none was given. *)
Theorem constructed_invariants (q : Query) (d : Dto) :
  construct fromisoformat q = Ok d →
  keys_pattern (keys__ d) = true
  ∧ datetime_lt (start_date d) (end_date d) = true
  ∧ tzinfo (start_date d) = None ∧ tzinfo (end_date d) = None
  ∧ 0 <= limit d <= 500
  ∧ (q_limit q = None → limit d = 100).
Proof.
  intros Hc.
  destruct (construct_Ok_inv fromisoformat q d Hc)
    as (s & e & Hs & He & Hpat & Hn & Hlt & _ & ->).
  apply transform_start_date_Some in Hs as (s0 & _ & ->).
  apply transform_end_date_Some in He as (e0 & _ & ->).
  unfold numbers_in_range in Hn. rewrite !andb_true_iff, !Z.leb_le in Hn.
  cbn [dto_of keys__ start_date end_date limit].
  repeat split; try done; try lia.
  by intros ->.
Qed.

Lemma check_keys_loc v x : x ∈ check_keys v → loc x = "keys"%string.
Proof.
  unfold check_keys. destruct (keys_pattern v); [by rewrite elem_of_nil|].
  by intros ->%list_elem_of_singleton.
Qed.

Lemma check_interval_loc v x : x ∈ check_interval v → loc x = "interval"%string.
Proof.
  unfold check_interval. destruct (0 <=? v); [by rewrite elem_of_nil|].
  by intros ->%list_elem_of_singleton.
Qed.

Lemma check_limit_loc v x : x ∈ check_limit v → loc x = "limit"%string.
Proof.
  unfold check_limit. destruct (0 <=? v); simpl.
  - destruct (v <=? 500); simpl; [by rewrite elem_of_nil|].
    by intros ->%list_elem_of_singleton.
  - by intros ->%list_elem_of_singleton.
Qed.

(** X10: the order of the dates is checked before the aggregation: where
    the fields are valid and the start is not before the end, the failure
    is that of the dates, whatever the interval, its type and the
    aggregation. *)
Theorem dates_checked_first (q : Query) (s e : datetime) :
  keys_pattern (q_keys q) = true →
  numbers_in_range q = true →
  transform_start_date fromisoformat (q_startDate q) = Some s →
  transform_end_date fromisoformat (q_endDate q) = Some e →
  datetime_lt s e = false →
  construct fromisoformat q = Err (ValidationError end_before_start).
Proof.
  intros Hk Hn Hs He Hlt. pose proof (construct_cases fromisoformat q) as H.
  by rewrite Hs, He, Hk, Hn, datetime_ge_lt, Hlt in H.
Qed.

(** [timedelta] depends on the sum of its arguments alone. *)
Lemma timedelta_new_total d s us ms mi h w :
  timedelta_new d s us ms mi h w =
    timedelta_new 0 0
      (us + 1000 * ms + 1000000 * (s + 60 * mi + 3600 * h + 86400 * (d + 7 * w)))
      0 0 0 0.
Proof.
  unfold timedelta_new. cbv zeta.
  set (total := us + 1000 * ms + 1000000 * (s + 60 * mi + 3600 * h + 86400 * (d + 7 * w))).
  replace (total + 1000 * 0 + 1000000 * (0 + 60 * 0 + 3600 * 0 + 86400 * (0 + 7 * 0)))
    with total by lia.
  reflexivity.
Qed.

Lemma interval_in_timedelta_total (self : Dto) (it : IntervalType) :
  interval_type self = Some it → interval self ≠ 0 →
  interval_in_timedelta self
    = timedelta_new 0 0 (interval self * duration_table it) 0 0 0 0.
Proof.
  intros Hit Hnz. unfold interval_in_timedelta. rewrite Hit.
  rewrite (proj2 (Z.eqb_neq _ _)) by done.
  destruct it; simpl; rewrite timedelta_new_total; f_equal;
    unfold duration_table; lia.
Qed.

(** X11: on an aggregate query the interval resolves to a duration above
    zero, the interval times the unit of its type, or the resolution
    overflows, the duration being past the range of [timedelta]; it never
    raises a [ValueError]. *)
Theorem aggregate_query_duration (self : Dto) :
  is_aggregate_query self = true →
  ∃ it, interval_type self = Some it
    ∧ ((∃ td, interval_in_timedelta self = Ok td
              ∧ normalized td
              ∧ total_microseconds td = interval self * duration_table it
              ∧ 0 < total_microseconds td)
       ∨ (timedelta_limit <= interval self * duration_table it
          ∧ ∃ m, interval_in_timedelta self = Err (OverflowError m))).
Proof.
  unfold is_aggregate_query.
  rewrite !andb_true_iff, !bool_decide_eq_true, Z.ltb_lt.
  intros [[Hpos Hit] _].
  destruct (interval_type self) as [it|] eqn:Hty; [|done].
  exists it. split; [done|].
  rewrite (interval_in_timedelta_total self it Hty) by lia.
  assert (0 < duration_table it) as Hunit by (destruct it; done).
  destruct (Z_lt_le_dec (interval self * duration_table it) timedelta_limit)
    as [Hin|Hout].
  - left.
    destruct (timedelta_new_in_range 0 0 (interval self * duration_table it)
                0 0 0 0) as (td & Htd & Hnorm & Htot); [lia|].
    exists td. repeat split; try apply Hnorm; try done; lia.
  - right. split; [done|]. apply timedelta_new_overflow. lia.
Qed.

(** X12: the resolution depends on the duration alone: two objects whose
    intervals, each times the unit of its type, come to the same duration
    resolve alike, be it to a duration or to an overflow; so [n] weeks
    resolve as [7 * n] days and [n] months as [30 * n] days. *)
Theorem same_duration_same_resolution (a b : Dto) (ita itb : IntervalType) :
  interval_type a = Some ita →
  interval_type b = Some itb →
  interval a ≠ 0 →
  interval b ≠ 0 →
  interval a * duration_table ita = interval b * duration_table itb →
  interval_in_timedelta a = interval_in_timedelta b.
Proof.
  intros Ha Hb Hna Hnb Heq.
  rewrite (interval_in_timedelta_total a ita Ha Hna).
  rewrite (interval_in_timedelta_total b itb Hb Hnb).
  by rewrite Heq.
Qed.

End DtoFacts.

(** ** More on the data migration *)

Section SeedFacts.

Import Migration.

Variable TEAM_ROLE_OWNER : string.
Variables READ MANAGE DELETE : PermissionSpec.

Local Abbreviation upgrade := (upgrade TEAM_ROLE_OWNER READ MANAGE DELETE).
Local Abbreviation downgrade := (downgrade TEAM_ROLE_OWNER READ MANAGE DELETE).
Local Abbreviation owners := (role_owner_ids_stmt TEAM_ROLE_OWNER).
Local Abbreviation permissions := (permissions READ MANAGE DELETE).
Local Abbreviation unseeded := (unseeded READ MANAGE DELETE).
Local Abbreviation seeded_links :=
  (seeded_links TEAM_ROLE_OWNER READ MANAGE DELETE).

Lemma flush_id_upper next objs p :
  p ∈ flush next objs → id p < next + Z.of_nat (length objs).
Proof.
  revert next. induction objs as [|o objs IH]; intros next; simpl flush.
  - by rewrite elem_of_nil.
  - rewrite elem_of_cons. intros [->|Hp]; [simpl; lia|].
    apply IH in Hp. simpl length. lia.
Qed.

Lemma flush_ids_NoDup next objs : NoDup (id <$> flush next objs).
Proof.
  revert next. induction objs as [|o objs IH]; intros next; simpl.
  - constructor.
  - constructor; [|apply IH].
    intros (p & Hid & Hp)%list_elem_of_fmap. apply flush_id in Hp.
    simpl in Hid. lia.
Qed.

Lemma flush_complete next objs spec :
  spec ∈ objs →
  ∃ p, p ∈ flush next objs ∧ scope p = spec_scope spec
       ∧ title p = spec_title spec ∧ description p = spec_description spec.
Proof.
  revert next. induction objs as [|o objs IH]; intros next.
  - by rewrite elem_of_nil.
  - rewrite elem_of_cons. intros [->|Hs]; simpl.
    + eexists. split; [by left | done].
    + destruct (IH (next + 1) Hs) as (p & Hp & Hrest).
      exists p. split; [by right | done].
Qed.

Lemma owners_role_table (a b : Store) :
  role_table a = role_table b → owners a = owners b.
Proof. unfold role_owner_ids_stmt. by intros ->. Qed.

(** X13: [upgrade] keeps the integrity of the store: identifiers in use
    stay below the sequence, association rows keep referring to stored
    permissions, and the identifiers of the permissions stay distinct. *)
Theorem upgrade_keeps_integrity (s : Store) :
  fresh_ids s →
  foreign_keys s →
  NoDup (id <$> permission_table s) →
  fresh_ids (upgrade s) ∧ foreign_keys (upgrade s)
  ∧ NoDup (id <$> permission_table (upgrade s)).
Proof.
  intros Hfresh Hfk Hnd.
  destruct (upgrade_tables TEAM_ROLE_OWNER READ MANAGE DELETE s)
    as (Hp & Hr & Hrp & Hseq).
  split; [|split].
  - intros p. rewrite Hp, Hseq, elem_of_app. intros [Hin|Hin].
    + apply Hfresh in Hin. lia.
    + apply flush_id_upper in Hin. simpl in Hin. lia.
  - intros rp. rewrite Hrp, Hp, elem_of_app. intros [Hin|Hin].
    + destruct (Hfk rp Hin) as (p & Hpin & Hid).
      exists p. split; [|done]. apply elem_of_app. by left.
    + destruct (seeded_links_elem TEAM_ROLE_OWNER READ MANAGE DELETE s rp Hin)
        as (_ & p & Hpin & Hid).
      exists p. split; [|done]. apply elem_of_app. by right.
  - rewrite Hp, fmap_app. apply NoDup_app. split; [done|]. split.
    + intros x (p & -> & Hpin)%list_elem_of_fmap
               (p' & Heq & Hpin')%list_elem_of_fmap.
      apply Hfresh in Hpin. apply flush_id in Hpin'. lia.
    + apply flush_ids_NoDup.
Qed.

Lemma downgrade_unseeded (s : Store) : unseeded (downgrade s).
Proof.
  intros p. unfold Migration.downgrade. cbn [permission_table].
  rewrite list_elem_of_filter. by intros [Hp _].
Qed.

Lemma downgrade_noop (s : Store) : unseeded s → downgrade s = s.
Proof.
  intros Hun. unfold Migration.downgrade.
  cbn [permission_table role_permission_table role_table permission_id_seq].
  rewrite (filter_none (λ p, scope p ∈ spec_scope <$> permissions)) by done.
  rewrite (filter_all _ (role_permission_table s))
    by (intros rp _ [_ H]; by apply elem_of_nil in H).
  rewrite (filter_all _ (permission_table s)) by done.
  by destruct s.
Qed.

(** X14: [downgrade] leaves no permission of a seeded scope, changes
    nothing in a store that holds none, and so gives the same store when
    run a second time. *)
Theorem downgrade_idempotent (s : Store) :
  unseeded (downgrade s)
  ∧ (unseeded s → downgrade s = s)
  ∧ downgrade (downgrade s) = downgrade s.
Proof.
  split; [apply downgrade_unseeded|]. split; [apply downgrade_noop|].
  apply downgrade_noop, downgrade_unseeded.
Qed.

(** The tables after any number of runs of [upgrade]: the rows of the
    start, then seeded permissions with identifiers from the sequence of
    the start on, and links of owner roles to them. *)
Lemma iter_upgrade_tables (n : nat) (s : Store) :
  ∃ ps rps,
    permission_table (Nat.iter n upgrade s) = permission_table s ++ ps
    ∧ role_table (Nat.iter n upgrade s) = role_table s
    ∧ role_permission_table (Nat.iter n upgrade s)
      = role_permission_table s ++ rps
    ∧ permission_id_seq s <= permission_id_seq (Nat.iter n upgrade s)
    ∧ (∀ p, p ∈ ps →
         scope p ∈ spec_scope <$> permissions ∧ permission_id_seq s <= id p)
    ∧ (∀ rp, rp ∈ rps →
         role_id rp ∈ owners s ∧ ∃ p, p ∈ ps ∧ permission_id rp = id p).
Proof.
  induction n as [|n (ps & rps & Hp & Hr & Hrp & Hseq & Hps & Hrps)].
  - exists [], []. simpl. rewrite !app_nil_r.
    do 3 (split; [done|]). split; [lia|].
    split; intros x Hx; by apply elem_of_nil in Hx.
  - simpl Nat.iter.
    destruct (upgrade_tables TEAM_ROLE_OWNER READ MANAGE DELETE
                (Nat.iter n upgrade s)) as (Hp' & Hr' & Hrp' & Hseq').
    exists (ps ++ flush (permission_id_seq (Nat.iter n upgrade s)) permissions),
           (rps ++ seeded_links (Nat.iter n upgrade s)).
    rewrite Hp', Hr', Hrp', Hseq', Hp, Hr, Hrp, <- !app_assoc.
    do 3 (split; [done|]). split; [lia|]. split.
    + intros p [H|H]%elem_of_app; [by apply Hps|].
      split; [by eapply flush_scope|]. apply flush_id in H. lia.
    + intros rp [H|H]%elem_of_app.
      * destruct (Hrps rp H) as (Ho & p & Hpin & Hid).
        split; [done|]. exists p. split; [|done]. apply elem_of_app. by left.
      * apply seeded_links_elem in H as (Ho & p & Hpin & Hid).
        split; [by rewrite <- (owners_role_table _ _ Hr)|].
        exists p. split; [|done]. apply elem_of_app. by right.
Qed.

(** X15: one [downgrade] undoes any number of runs of [upgrade]: from a
    store that keeps its integrity and holds no permission of a seeded
    scope, the permission, association and role tables come back as they
    were. *)
Theorem downgrade_undoes_upgrades (n : nat) (s : Store) :
  fresh_ids s →
  foreign_keys s →
  unseeded s →
  permission_table (downgrade (Nat.iter n upgrade s)) = permission_table s
  ∧ role_permission_table (downgrade (Nat.iter n upgrade s))
    = role_permission_table s
  ∧ role_table (downgrade (Nat.iter n upgrade s)) = role_table s.
Proof.
  intros Hfresh Hfk Hun.
  destruct (iter_upgrade_tables n s)
    as (ps & rps & Hp & Hr & Hrp & _ & Hps & Hrps).
  unfold Migration.downgrade.
  cbn [permission_table role_permission_table role_table].
  rewrite (owners_role_table _ _ Hr), Hp, Hr, Hrp.
  split; [|split; [|reflexivity]].
  - rewrite filter_app, filter_all, filter_none; [by rewrite app_nil_r| |].
    + intros p Hin Hnot. apply Hnot. by apply Hps.
    + intros p Hin. by apply Hun.
  - rewrite (filter_app _ (permission_table s)).
    rewrite (filter_none _ (permission_table s)) by
      (intros p Hin Hsc; by apply (Hun p Hin)).
    rewrite (filter_all _ ps) by (intros p Hin; by apply Hps).
    rewrite app_nil_l, filter_app, filter_all, filter_none;
      [by rewrite app_nil_r| |].
    + intros rp Hin Hnot. apply Hnot.
      destruct (Hrps rp Hin) as (Hown & p & Hpin & Hid).
      split; [exact Hown|]. rewrite Hid. apply list_elem_of_fmap. eauto.
    + intros rp Hin [_ Hid].
      apply list_elem_of_fmap in Hid as (p & Hid & Hpin).
      destruct (Hfk rp Hin) as (p' & Hp' & Hid').
      apply Hfresh in Hp'. apply Hps in Hpin as [_ Hpin]. lia.
Qed.

(** X16: [downgrade] selects by scope, not by what [upgrade] inserted: a
    permission of a seeded scope that the store held before the seed is
    gone after [upgrade] and [downgrade], so the permission table does not
    come back as it was. *)
Theorem seeded_scope_is_lost (s : Store) (p : Permission) :
  p ∈ permission_table s →
  scope p ∈ spec_scope <$> permissions →
  (p ∉ permission_table (downgrade (upgrade s)))
  ∧ permission_table (downgrade (upgrade s)) ≠ permission_table s.
Proof.
  intros Hp Hsc.
  assert (p ∉ permission_table (downgrade (upgrade s))) as Hnot.
  { unfold Migration.downgrade. cbn [permission_table].
    rewrite list_elem_of_filter. by intros [H _]. }
  split; [done|]. intros Heq. by rewrite Heq in Hnot.
Qed.

(** X17: what the migration leaves alone: neither direction changes the
    role table; [upgrade] deletes nothing and adds association rows for
    owner roles only; [downgrade] adds nothing and keeps the association
    rows of the other roles and the permissions of the other scopes. *)
Theorem migration_leaves_alone (s : Store) :
  role_table (upgrade s) = role_table s
  ∧ role_table (downgrade s) = role_table s
  ∧ (∀ p, p ∈ permission_table s → p ∈ permission_table (upgrade s))
  ∧ (∀ rp, rp ∈ role_permission_table s →
           rp ∈ role_permission_table (upgrade s))
  ∧ (∀ rp, rp ∈ role_permission_table (upgrade s) →
           rp ∈ role_permission_table s ∨ role_id rp ∈ owners s)
  ∧ (∀ p, p ∈ permission_table (downgrade s) → p ∈ permission_table s)
  ∧ (∀ rp, rp ∈ role_permission_table (downgrade s) →
           rp ∈ role_permission_table s)
  ∧ (∀ rp, rp ∈ role_permission_table s → role_id rp ∉ owners s →
           rp ∈ role_permission_table (downgrade s))
  ∧ (∀ p, p ∈ permission_table s → scope p ∉ spec_scope <$> permissions →
          p ∈ permission_table (downgrade s)).
Proof.
  destruct (upgrade_tables TEAM_ROLE_OWNER READ MANAGE DELETE s)
    as (Hp & Hr & Hrp & _).
  rewrite Hp, Hr, Hrp. unfold Migration.downgrade.
  cbn [permission_table role_permission_table role_table].
  repeat split; try done.
  - intros p Hin. apply elem_of_app. by left.
  - intros rp Hin. apply elem_of_app. by left.
  - intros rp [Hin|Hin]%elem_of_app; [by left|]. right.
    by apply (seeded_links_elem TEAM_ROLE_OWNER READ MANAGE DELETE s rp).
  - by intros p [_ Hin]%list_elem_of_filter.
  - by intros rp [_ Hin]%list_elem_of_filter.
  - intros rp Hin Hown. apply list_elem_of_filter. split; [|done].
    by intros [Ho _].
  - intros p Hin Hsc. by apply list_elem_of_filter.
Qed.

(** X18: after [upgrade] every owner role holds every seeded permission: for
    each role of the owner name and each of the three permissions there is
    a new permission row with its scope, title and description, and an
    association row linking the role to it. *)
Theorem upgrade_links_every_owner (s : Store) (r : Z) (spec : PermissionSpec) :
  r ∈ owners s →
  spec ∈ permissions →
  ∃ p, p ∈ permission_table (upgrade s)
       ∧ scope p = spec_scope spec ∧ title p = spec_title spec
       ∧ description p = spec_description spec
       ∧ permission_id_seq s <= id p
       ∧ {| role_id := r; permission_id := id p |}
           ∈ role_permission_table (upgrade s).
Proof.
  intros Hr Hspec.
  destruct (upgrade_tables TEAM_ROLE_OWNER READ MANAGE DELETE s)
    as (Hp & _ & Hrp & _).
  destruct (flush_complete (permission_id_seq s) permissions spec Hspec)
    as (p & Hpin & Hsc & Hti & Hde).
  exists p. rewrite Hp, Hrp.
  split; [apply elem_of_app; by right|].
  repeat split; try done; [by apply flush_id in Hpin|].
  apply elem_of_app. right. unfold Migration.seeded_links.
  apply list_elem_of_bind. exists p. split; [|done].
  apply list_elem_of_bind. exists r. split; [|done].
  by apply list_elem_of_singleton.
Qed.

(** X19: with no role of the owner name [upgrade] inserts the three
    permissions and leaves the association table as it is, and
    [downgrade] then removes them again. *)
Theorem upgrade_without_owner (s : Store) :
  owners s = [] →
  unseeded s →
  role_permission_table (upgrade s) = role_permission_table s
  ∧ length (permission_table (upgrade s))
    = (length (permission_table s) + 3)%nat
  ∧ permission_table (downgrade (upgrade s)) = permission_table s
  ∧ role_permission_table (downgrade (upgrade s)) = role_permission_table s.
Proof.
  intros Hown Hun.
  destruct (upgrade_tables TEAM_ROLE_OWNER READ MANAGE DELETE s)
    as (Hp & Hr & Hrp & _).
  assert (seeded_links s = []) as Hnone.
  { unfold Migration.seeded_links. rewrite Hown. reflexivity. }
  rewrite Hnone, app_nil_r in Hrp.
  split; [done|]. split; [by rewrite Hp, length_app|].
  unfold Migration.downgrade.
  cbn [permission_table role_permission_table role_table].
  rewrite (owners_role_table _ _ Hr), Hown, Hp, Hrp. split.
  - rewrite filter_app, filter_all, filter_none; [by rewrite app_nil_r| |].
    + intros p Hin Hnot. apply Hnot. by eapply flush_scope.
    + intros p Hin. by apply Hun.
  - apply filter_all. intros rp _ [H _]. by apply elem_of_nil in H.
Qed.

End SeedFacts.

(** *** The further statements at the samples *)

Lemma keys_are_proper_example :
  u "humidity" ≠ [] ∧ (comma ∉ u "humidity")
  ∧ ∀ c, c ∈ u "humidity" → c ∈ u "temp, humidity,,temp".
Proof.
  apply (keys_are_proper (u "temp, humidity,,temp")
           {[ u "temp"; u "humidity" ]} (u "humidity")).
  - vm_compute. reflexivity.
  - apply elem_of_union_r, elem_of_singleton. reflexivity.
Defined.

Lemma keys_of_joined_example :
  keys_found (u "temp,humidity" ++ comma :: u "temp")
    = keys_found (u "temp,humidity") ∪ keys_found (u "temp")
  ∧ keys_found (u "temp" ++ comma :: u "temp,humidity")
    = keys_found (u "temp,humidity" ++ comma :: u "temp")
  ∧ keys_found (u "temp,humidity" ++ comma :: u "temp,humidity")
    = keys_found (u "temp,humidity").
Proof.
  apply (keys_of_joined (u "temp,humidity") (u "temp")); reflexivity.
Defined.

Lemma constructed_keys_chars_weekly :
  u "humidity" ≠ []
  ∧ ∀ c, c ∈ u "humidity" →
      keys_char c = true ∧ c ≠ comma ∧ is_space c = false.
Proof.
  apply (constructed_keys_chars fromisoformat_extended Samples.weekly
           (dto_of Samples.weekly Samples.new_year_2021 Samples.new_year_2022)
           {[ u "temp"; u "humidity" ]} (u "humidity")).
  - reflexivity.
  - vm_compute. reflexivity.
  - apply elem_of_union_r, elem_of_singleton. reflexivity.
Defined.

(** The request of commas is accepted, and its keys raise. *)
Lemma constructed_keys_raise_no_keys :
  keys (dto_of MoreSamples.no_keys Samples.new_year_2021 Samples.new_year_2022)
    = Err (ValueError "At least one key is required").
Proof.
  refine (proj2 (proj1
    (constructed_keys_raise fromisoformat_extended MoreSamples.no_keys
       (dto_of MoreSamples.no_keys Samples.new_year_2021 Samples.new_year_2022)
       _)) _); reflexivity.
Defined.

(** A window of ten hours is refused, its two ends showing the same wall
    clock. *)
Lemma window_by_wall_clock_ten_hours :
  raises_ValidationError
    (construct fromisoformat_extended MoreSamples.ten_hours) = true.
Proof.
  refine (proj2
    (window_by_wall_clock fromisoformat_extended MoreSamples.ten_hours
       (replace_tzinfo Samples.new_year_2021 (Some 18000000000))
       (replace_tzinfo Samples.new_year_2021 (Some (-18000000000)))
       _ _) _); reflexivity.
Defined.

Lemma constructed_dates_normal_weekly :
  start_date_value Samples.new_year_2021 = Samples.new_year_2021
  ∧ end_date_value Samples.new_year_2022 = Samples.new_year_2022.
Proof.
  refine (proj2
    (constructed_dates_normal fromisoformat_extended Samples.weekly
       (dto_of Samples.weekly Samples.new_year_2021 Samples.new_year_2022)
       _)); reflexivity.
Defined.

Lemma constructed_invariants_weekly :
  limit (dto_of Samples.weekly Samples.new_year_2021 Samples.new_year_2022)
    = 100.
Proof.
  refine (proj2 (proj2 (proj2 (proj2 (proj2
    (constructed_invariants fromisoformat_extended Samples.weekly
       (dto_of Samples.weekly Samples.new_year_2021 Samples.new_year_2022)
       _))))) _); reflexivity.
Defined.

(** Dates out of order and no aggregation: the failure is that of the
    dates. *)
Lemma dates_checked_first_backwards :
  construct fromisoformat_extended MoreSamples.backwards
    = Err (ValidationError end_before_start).
Proof.
  apply (dates_checked_first fromisoformat_extended MoreSamples.backwards
           Samples.new_year_2022 Samples.new_year_2021); reflexivity.
Defined.

Lemma aggregate_query_duration_two_weeks :
  ∃ it, interval_type (Samples.with_interval (Some WEEK) 2) = Some it
    ∧ ((∃ td, interval_in_timedelta (Samples.with_interval (Some WEEK) 2) = Ok td
              ∧ normalized td
              ∧ total_microseconds td
                = interval (Samples.with_interval (Some WEEK) 2) * duration_table it
              ∧ 0 < total_microseconds td)
       ∨ (timedelta_limit
            <= interval (Samples.with_interval (Some WEEK) 2) * duration_table it
          ∧ ∃ m, interval_in_timedelta (Samples.with_interval (Some WEEK) 2)
                 = Err (OverflowError m))).
Proof.
  apply (aggregate_query_duration (Samples.with_interval (Some WEEK) 2)).
  reflexivity.
Defined.

(** Two weeks resolve as fourteen days. *)
Lemma same_duration_weeks_days :
  interval_in_timedelta (Samples.with_interval (Some WEEK) 2)
    = interval_in_timedelta (Samples.with_interval (Some DAY) 14).
Proof.
  apply (same_duration_same_resolution
           (Samples.with_interval (Some WEEK) 2)
           (Samples.with_interval (Some DAY) 14) WEEK DAY);
    (reflexivity || discriminate).
Defined.

(** The integrity of the sample stores. *)
Lemma two_teams_fresh_ids : Migration.fresh_ids SampleStores.two_teams.
Proof.
  intros p Hp. cbn in Hp. apply list_elem_of_singleton in Hp as ->. cbn. lia.
Qed.

Lemma two_teams_foreign_keys : Migration.foreign_keys SampleStores.two_teams.
Proof.
  intros rp Hrp. eexists. split; [by left|].
  cbn in Hrp. rewrite !elem_of_cons, elem_of_nil in Hrp.
  by destruct Hrp as [->|[->|[]]].
Qed.

Lemma two_teams_unseeded :
  Migration.unseeded SampleStores.read SampleStores.manage SampleStores.delete
    SampleStores.two_teams.
Proof.
  intros p Hp. cbn in Hp. apply list_elem_of_singleton in Hp as ->. cbn.
  rewrite !elem_of_cons, elem_of_nil. by intros [|[|[|]]].
Qed.

Lemma upgrade_keeps_integrity_two_teams :
  let s :=
    Migration.upgrade SampleStores.owner SampleStores.read
      SampleStores.manage SampleStores.delete SampleStores.two_teams in
  Migration.fresh_ids s ∧ Migration.foreign_keys s
  ∧ NoDup (Migration.id <$> Migration.permission_table s).
Proof.
  apply (upgrade_keeps_integrity SampleStores.owner SampleStores.read
           SampleStores.manage SampleStores.delete SampleStores.two_teams).
  - apply two_teams_fresh_ids.
  - apply two_teams_foreign_keys.
  - cbn. apply NoDup_singleton.
Defined.

(** Three runs of [upgrade], one of [downgrade]. *)
Lemma downgrade_undoes_upgrades_two_teams :
  let upgrade :=
    Migration.upgrade SampleStores.owner SampleStores.read
      SampleStores.manage SampleStores.delete in
  let downgrade :=
    Migration.downgrade SampleStores.owner SampleStores.read
      SampleStores.manage SampleStores.delete in
  Migration.permission_table
    (downgrade (Nat.iter 3 upgrade SampleStores.two_teams))
    = Migration.permission_table SampleStores.two_teams
  ∧ Migration.role_permission_table
      (downgrade (Nat.iter 3 upgrade SampleStores.two_teams))
    = Migration.role_permission_table SampleStores.two_teams
  ∧ Migration.role_table
      (downgrade (Nat.iter 3 upgrade SampleStores.two_teams))
    = Migration.role_table SampleStores.two_teams.
Proof.
  apply (downgrade_undoes_upgrades SampleStores.owner SampleStores.read
           SampleStores.manage SampleStores.delete 3 SampleStores.two_teams).
  - apply two_teams_fresh_ids.
  - apply two_teams_foreign_keys.
  - apply two_teams_unseeded.
Defined.

(** The permission inserted by hand does not survive the round trip. *)
Lemma seeded_scope_is_lost_already_seeded :
  Migration.permission_table
    (Migration.downgrade SampleStores.owner SampleStores.read
       SampleStores.manage SampleStores.delete
       (Migration.upgrade SampleStores.owner SampleStores.read
          SampleStores.manage SampleStores.delete MoreSamples.already_seeded))
  ≠ Migration.permission_table MoreSamples.already_seeded.
Proof.
  refine (proj2
    (seeded_scope_is_lost SampleStores.owner SampleStores.read
       SampleStores.manage SampleStores.delete MoreSamples.already_seeded
       {| Migration.id := 1; Migration.scope := "team.roles:read";
          Migration.title := "Read roles, by hand";
          Migration.description := "Inserted before the migration" |} _ _)).
  - by left.
  - by left.
Defined.

Lemma upgrade_links_every_owner_two_teams :
  ∃ p, p ∈ Migration.permission_table
             (Migration.upgrade SampleStores.owner SampleStores.read
                SampleStores.manage SampleStores.delete SampleStores.two_teams)
       ∧ Migration.scope p = "team.roles:manage"%string
       ∧ Migration.title p = "Manage roles"%string
       ∧ Migration.description p
         = "Create and update the roles of a team"%string
       ∧ 2 <= Migration.id p
       ∧ {| Migration.role_id := 12; Migration.permission_id := Migration.id p |}
           ∈ Migration.role_permission_table
               (Migration.upgrade SampleStores.owner SampleStores.read
                  SampleStores.manage SampleStores.delete SampleStores.two_teams).
Proof.
  apply (upgrade_links_every_owner SampleStores.owner SampleStores.read
           SampleStores.manage SampleStores.delete SampleStores.two_teams
           12 SampleStores.manage).
  - vm_compute. apply list_elem_of_further, list_elem_of_here.
  - apply list_elem_of_further, list_elem_of_here.
Defined.

Lemma upgrade_without_owner_no_owner :
  let s :=
    Migration.upgrade SampleStores.owner SampleStores.read
      SampleStores.manage SampleStores.delete MoreSamples.no_owner in
  Migration.role_permission_table s = []
  ∧ length (Migration.permission_table s) = 3%nat
  ∧ Migration.permission_table
      (Migration.downgrade SampleStores.owner SampleStores.read
         SampleStores.manage SampleStores.delete s) = []
  ∧ Migration.role_permission_table
      (Migration.downgrade SampleStores.owner SampleStores.read
         SampleStores.manage SampleStores.delete s) = [].
Proof.
  apply (upgrade_without_owner SampleStores.owner SampleStores.read
           SampleStores.manage SampleStores.delete MoreSamples.no_owner).
  - reflexivity.
  - intros p Hp. by apply elem_of_nil in Hp.
Defined.

(** ** Construction from the raw parameters *)

Section RawFacts.

Context {AggregationType Timezone SortDirection : Type}.
Variable fromisoformat_text : str → Decoded datetime.
Variable decode_IntervalType : str → Decoded IntervalType.
Variable decode_AggregationType : str → Decoded AggregationType.
Variable decode_Timezone : str → Decoded Timezone.
Variable decode_SortDirection : str → Decoded SortDirection.
Variable decode_int : str → Decoded Z.

Local Abbreviation parser := (fromisoformat_of fromisoformat_text).
Local Abbreviation raw_construct :=
  (construct_raw fromisoformat_text decode_IntervalType decode_AggregationType
     decode_Timezone decode_SortDirection decode_int).
Local Abbreviation raw_fields :=
  (fields fromisoformat_text decode_IntervalType decode_AggregationType
     decode_Timezone decode_SortDirection decode_int).
Local Abbreviation raw_errors :=
  (raw_field_errors fromisoformat_text decode_IntervalType
     decode_AggregationType decode_Timezone decode_SortDirection decode_int).
Local Abbreviation raw_decoded :=
  (decoded decode_IntervalType decode_AggregationType decode_Timezone
     decode_SortDirection decode_int).
Local Abbreviation Dto :=
  (@TimeseriesAggregationQueryDto AggregationType Timezone SortDirection).

Lemma both_inr {A B} (f : list ErrorDetail + A) (g : list ErrorDetail + B) a b :
  both f g = inr (a, b) ↔ f = inr a ∧ g = inr b.
Proof.
  unfold both. destruct f, g; split; intros H;
    try discriminate; try (destruct H; discriminate).
  - by injection H as -> ->.
  - destruct H as [[= ->] [= ->]]. reflexivity.
Qed.

Lemma located_both {A B} names names'
    (f : list ErrorDetail + A) (g : list ErrorDetail + B) :
  located names f → located names' g → located (names ++ names') (both f g).
Proof.
  intros Hf Hg errs. unfold both.
  destruct f as [ef|a], g as [eg|b]; try done; intros [= <-]; simpl.
  - destruct (Hf ef eq_refl) as [Hne Hloc].
    destruct (Hg eg eq_refl) as [_ Hloc'].
    split; [by destruct ef|].
    intros x [Hx|Hx]%elem_of_app; apply elem_of_app; auto.
  - destruct (Hf ef eq_refl) as [Hne Hloc]. rewrite app_nil_r.
    split; [done|]. intros x Hx. apply elem_of_app. auto.
  - destruct (Hg eg eq_refl) as [Hne Hloc].
    split; [done|]. intros x Hx. apply elem_of_app. auto.
Qed.

Lemma located_field_error {A} alias message :
  located [alias] (@inl _ A (field_error alias message)).
Proof.
  intros errs [= <-]. split; [done|].
  intros x ->%list_elem_of_singleton. by left.
Qed.

Lemma located_inr {A} names (a : A) : located names (@inr (list ErrorDetail) A a).
Proof. intros errs H. discriminate H. Qed.

Lemma located_inl {A} alias (errs : list ErrorDetail) :
  errs ≠ [] → (∀ x, x ∈ errs → loc x = alias) →
  located [alias] (@inl _ A errs).
Proof.
  intros Hne Hloc errs' [= <-]. split; [done|].
  intros y Hy. rewrite (Hloc y Hy). by left.
Qed.

Lemma located_field_keys raw : located ["keys"%string] (field_keys raw).
Proof.
  unfold field_keys. destruct raw as [v|]; [|apply located_field_error].
  pose proof (check_keys_loc v) as Hloc.
  destruct (check_keys v) as [|x l]; [apply located_inr|]. by apply located_inl.
Qed.

Lemma located_field_date alias raw :
  located [alias] (field_date fromisoformat_text alias raw).
Proof.
  unfold field_date. destruct raw as [v|]; [|apply located_field_error].
  destruct (fromisoformat_text v);
    [apply located_inr | apply located_field_error].
Qed.

Lemma located_field_optional {A} alias (decode : str → Decoded A) raw :
  located [alias] (field_optional alias decode raw).
Proof.
  unfold field_optional. destruct raw as [v|]; [|apply located_inr].
  destruct (decode v); [apply located_inr | apply located_field_error].
Qed.

Lemma located_field_number alias check dflt raw :
  (∀ n x, x ∈ check n → loc x = alias) →
  located [alias] (field_number decode_int alias check dflt raw).
Proof.
  intros Hcheck. unfold field_number.
  destruct raw as [v|]; [|apply located_inr].
  destruct (decode_int v) as [n|m]; [|apply located_field_error].
  pose proof (Hcheck n) as Hloc.
  destruct (check n) as [|x l]; [apply located_inr|]. by apply located_inl.
Qed.

Lemma located_fields rq : located aliases (raw_fields rq).
Proof.
  unfold fields.
  apply (located_both ["keys"%string]); [apply located_field_keys|].
  apply (located_both ["startDate"%string]); [apply located_field_date|].
  apply (located_both ["endDate"%string]); [apply located_field_date|].
  apply (located_both ["intervalType"%string]);
    [apply located_field_optional|].
  apply (located_both ["interval"%string]);
    [apply located_field_number, check_interval_loc|].
  apply (located_both ["agg"%string]); [apply located_field_optional|].
  apply (located_both ["limit"%string]);
    [apply located_field_number, check_limit_loc|].
  apply (located_both ["timezone"%string]); apply located_field_optional.
Qed.

Lemma check_keys_nil v : check_keys v = [] ↔ keys_pattern v = true.
Proof. unfold check_keys. by destruct (keys_pattern v). Qed.

Lemma field_keys_inr raw k :
  field_keys raw = inr k ↔ raw = Some k ∧ keys_pattern k = true.
Proof.
  unfold field_keys. destruct raw as [v|]; [|by split; [|intros [? _]]].
  pose proof (check_keys_nil v) as Hnil.
  destruct (check_keys v) as [|x l]; split.
  - intros [= ->]. split; [done|]. by apply Hnil.
  - by intros [[= ->] _].
  - done.
  - intros [[= ->] Hp]. by apply Hnil in Hp.
Qed.

Lemma field_date_inr alias raw d :
  field_date fromisoformat_text alias raw = inr d
  ↔ ∃ v, raw = Some v ∧ transform_start_date parser v = Some d
         ∧ transform_end_date parser v = Some d.
Proof.
  unfold field_date, transform_start_date, transform_end_date,
    fromisoformat_of.
  destruct raw as [v|]; [|split; [done | by intros (? & ? & _)]].
  split.
  - destruct (fromisoformat_text v) as [dt|] eqn:Hf; [|done]. intros [= <-].
    exists v. rewrite Hf. repeat split; reflexivity.
  - intros (v' & Hv & H & _). injection Hv as <-.
    destruct (fromisoformat_text v) as [dt|]; [|done].
    simpl in H. by injection H as ->.
Qed.

Lemma field_optional_inr {A} alias (decode : str → Decoded A) raw o :
  field_optional alias decode raw = inr o ↔ decode_optional decode raw = Some o.
Proof.
  unfold field_optional, decode_optional. destruct raw as [v|].
  - destruct (decode v); split; try done; by intros [= ->].
  - split; by intros [= ->].
Qed.

Lemma field_interval_inr raw n :
  field_number decode_int "interval" check_interval 0 raw = inr n
  ↔ ∃ o, decode_optional decode_int raw = Some o ∧ n = default 0 o
         ∧ (0 <=? n) = true.
Proof.
  unfold field_number, decode_optional, check_interval.
  destruct raw as [v|].
  - destruct (decode_int v) as [m|]; [|split; [done | by intros (? & ? & _)]].
    destruct (0 <=? m) eqn:Hm; split.
    + intros [= <-]. by exists (Some m).
    + by intros (o & [= <-] & -> & _).
    + done.
    + intros (o & [= <-] & -> & H). simpl in H. congruence.
  - split.
    + intros [= <-]. by exists None.
    + by intros (o & [= <-] & -> & _).
Qed.

Lemma field_limit_inr raw n :
  field_number decode_int "limit" check_limit 100 raw = inr n
  ↔ ∃ o, decode_optional decode_int raw = Some o ∧ n = default 100 o
         ∧ (0 <=? n) = true ∧ (n <=? 500) = true.
Proof.
  unfold field_number, decode_optional, check_limit.
  destruct raw as [v|].
  - destruct (decode_int v) as [m|];
      [|split; [done | by intros (? & ? & _)]].
    destruct (0 <=? m) eqn:Hm, (m <=? 500) eqn:Hm'; simpl; split;
      try done.
    + intros [= <-]. by exists (Some m).
    + by intros (o & [= <-] & -> & _).
    + intros (o & [= <-] & -> & _ & H). simpl in H. congruence.
    + intros (o & [= <-] & -> & H & _). simpl in H. congruence.
    + intros (o & [= <-] & -> & H & _). simpl in H. congruence.
  - split.
    + intros [= <-]. by exists None.
    + by intros (o & [= <-] & -> & _).
Qed.

(** With valid fields, construction is the model validator on the object
    built. *)
Lemma construct_valid_fields (f : str → option datetime)
    (q : @Query AggregationType Timezone SortDirection) (s e : datetime) :
  keys_pattern (q_keys q) = true →
  numbers_in_range q = true →
  transform_start_date f (q_startDate q) = Some s →
  transform_end_date f (q_endDate q) = Some e →
  construct f q =
    match validate_dto (dto_of q s e) with
    | Ok self' => Ok self'
    | Err (ValueError m) =>
        Err (ValidationError (field_error "" ("Value error, " ++ m)))
    | Err e => Err e
    end.
Proof.
  intros Hk Hn Hs He. unfold numbers_in_range in Hn.
  apply andb_prop in Hn as [Hn Hl']. apply andb_prop in Hn as [Hn Hl].
  unfold construct, field_errors, check_keys, check_date, check_interval,
    check_limit.
  by rewrite Hk, Hs, He, Hn, Hl, Hl'.
Qed.

(** What the fields give when they are all valid. *)
Lemma fields_inr rq k s e it n a l tz ob :
  raw_fields rq = inr (k, (s, (e, (it, (n, (a, (l, (tz, ob))))))))
  ↔ ∃ q, raw_decoded rq = Some q
         ∧ keys_pattern (q_keys q) = true ∧ numbers_in_range q = true
         ∧ transform_start_date parser (q_startDate q) = Some s
         ∧ transform_end_date parser (q_endDate q) = Some e
         ∧ dto_of q s e
           = {| keys__ := k; start_date := s; end_date := e;
                interval_type := it; interval := n; agg := a; limit := l;
                timezone := tz; order_by := ob |}.
Proof.
  unfold fields, decoded.
  rewrite !both_inr, field_keys_inr, !field_date_inr, !field_optional_inr,
    field_interval_inr, field_limit_inr.
  split.
  - intros ((Hk & Hpat) & (vs & Hs & Hts & _) & (ve & He & _ & Hte) & Hit
            & (on & Hn & -> & Hn0) & Ha & (ol & Hl & -> & Hl0 & Hl5)
            & Htz & Hob).
    rewrite Hk, Hs, He, Hit, Hn, Ha, Hl, Htz, Hob. simpl.
    eexists. split; [reflexivity|]. unfold numbers_in_range. simpl.
    by rewrite Hpat, Hn0, Hl0, Hl5.
  - intros (q & Hq & Hpat & Hrange & Hts & Hte & Hdto).
    destruct (r_keys rq) as [k'|]; [|done].
    destruct (r_startDate rq) as [vs|]; [|done].
    destruct (r_endDate rq) as [ve|]; [|done]. simpl in Hq.
    destruct (decode_optional decode_IntervalType _) as [it'|]; [|done].
    destruct (decode_optional decode_int (r_interval rq)) as [on|]; [|done].
    destruct (decode_optional decode_AggregationType _) as [a'|]; [|done].
    destruct (decode_optional decode_int (r_limit rq)) as [ol|]; [|done].
    destruct (decode_optional decode_Timezone _) as [tz'|]; [|done].
    destruct (decode_optional decode_SortDirection _) as [ob'|]; [|done].
    simpl in Hq. injection Hq as <-.
    unfold dto_of in Hdto. simpl in *.
    injection Hdto as <- <- <- <- <- <- <-.
    unfold numbers_in_range in Hrange. simpl in Hrange.
    apply andb_prop in Hrange as [Hrange Hl5].
    apply andb_prop in Hrange as [Hn0 Hl0].
    split; [done|].
    split; [exists vs; split; [done|]; split; [exact Hts | exact Hts]|].
    split; [exists ve; split; [done|]; split; [exact Hte | exact Hte]|].
    split; [done|].
    split; [by exists on|].
    split; [done|].
    split; [by exists ol|].
    done.
Qed.

(** Construction from the raw parameters succeeds exactly where the
    parameters decode and construction from the decoded ones succeeds, and
    then with the same object. *)
Lemma construct_raw_Ok_iff (rq : RawQuery) (d : Dto) :
  raw_construct rq = Ok d
  ↔ ∃ q, raw_decoded rq = Some q ∧ construct parser q = Ok d.
Proof.
  unfold construct_raw. split.
  - destruct (raw_fields rq)
      as [errs|(k & s & e & it & n & a & l & tz & ob)] eqn:Hf; [done|].
    apply fields_inr in Hf as (q & Hq & Hpat & Hrange & Hts & Hte & Hdto).
    intros H. exists q. split; [done|].
    rewrite (construct_valid_fields parser q s e) by done.
    by rewrite Hdto.
  - intros (q & Hq & Hc).
    destruct (construct_Ok_inv parser q d Hc)
      as (s & e & Hts & Hte & Hpat & Hrange & _ & _ & _).
    rewrite (construct_valid_fields parser q s e) in Hc by done.
    assert (raw_fields rq
            = inr (q_keys q, (s, (e, (q_intervalType q,
                   (default 0 (q_interval q), (q_agg q,
                   (default 100 (q_limit q),
                   (q_timezone q, q_orderBy q))))))))) as ->.
    { apply fields_inr. exists q. by repeat split. }
    exact Hc.
Qed.

(** X7: construction from the parameters of the query string succeeds
    exactly when [keys], [startDate] and [endDate] are given, every other
    parameter that is given decodes (to a member of its enumeration, to an
    integer), the keys match the pattern, the interval and the limit are
    within bounds, both dates parse with the start before the end, and
    interval, interval type and aggregation are all given. *)
Theorem construct_raw_accepts_iff (rq : RawQuery) :
  is_ok (raw_construct rq)
  = match raw_decoded rq with
    | Some q =>
        keys_pattern (q_keys q) && numbers_in_range q
        && dates_in_order parser q && aggregation_complete q
    | None => false
    end.
Proof.
  destruct (raw_decoded rq) as [q|] eqn:Hq.
  - rewrite <- construct_accepts_iff.
    destruct (raw_construct rq) as [d|e] eqn:Hr.
    + apply construct_raw_Ok_iff in Hr as (q' & Hq' & Hc).
      rewrite Hq in Hq'. injection Hq' as <-. by rewrite Hc.
    + destruct (construct parser q) as [d|e'] eqn:Hc; [|done].
      assert (raw_construct rq = Ok d) as Hr'
        by (apply construct_raw_Ok_iff; eauto).
      congruence.
  - destruct (raw_construct rq) as [d|e] eqn:Hr; [|done].
    apply construct_raw_Ok_iff in Hr as (q & Hq' & _). congruence.
Qed.

(** X9: a failed construction from the parameters of the query string
    raises a [ValidationError] that is not empty; it holds either the
    failures of the fields, each under one of the nine aliases, and then
    nothing of the model validator, or, where no field fails, one of the two
    failures of the model validator alone. *)
Theorem construct_raw_failure (rq : RawQuery) (e : Exception) :
  raw_construct rq = Err e →
  ∃ errs, e = ValidationError errs ∧ errs ≠ []
    ∧ ((errs = raw_errors rq ∧ ∀ x, x ∈ errs → loc x ∈ aliases)
       ∨ (raw_errors rq = []
          ∧ (errs = end_before_start ∨ errs = aggregation_incomplete))).
Proof.
  unfold construct_raw, raw_field_errors.
  pose proof (located_fields rq) as Hloc.
  destruct (raw_fields rq)
    as [errs|(k & s & e' & it & n & a & l & tz & ob)] eqn:Hf.
  - intros [= <-]. destruct (Hloc errs eq_refl) as [Hne Hin].
    exists errs. split; [done|]. split; [done|]. by left.
  - unfold validate_dto.
    cbn [start_date end_date interval interval_type agg errors_of].
    destruct (datetime_ge s e').
    + intros [= <-]. exists end_before_start.
      split; [done|]. split; [done|]. right. auto.
    + destruct (_ || _); [|done].
      intros [= <-]. exists aggregation_incomplete.
      split; [done|]. split; [done|]. right. auto.
Qed.

End RawFacts.

(** A limit above 500 and a sort direction that is none: two entries, in
    the order of the fields. *)
Lemma construct_raw_failure_sideways :
  ∃ errs,
    ValidationError
      (field_error "limit" "Input should be less than or equal to 500"
       ++ field_error "orderBy" "Input should be 'asc' or 'desc'")
      = ValidationError errs
    ∧ errs ≠ []
    ∧ ((errs = raw_field_errors SampleDecoders.iso_date
                 SampleDecoders.interval_type SampleDecoders.aggregation_type
                 SampleDecoders.time_zone SampleDecoders.sort_direction
                 SampleDecoders.small_int SampleDecoders.sideways
        ∧ ∀ x, x ∈ errs → loc x ∈ aliases)
       ∨ (raw_field_errors SampleDecoders.iso_date
            SampleDecoders.interval_type SampleDecoders.aggregation_type
            SampleDecoders.time_zone SampleDecoders.sort_direction
            SampleDecoders.small_int SampleDecoders.sideways = []
          ∧ (errs = end_before_start ∨ errs = aggregation_incomplete))).
Proof.
  apply (construct_raw_failure SampleDecoders.iso_date
           SampleDecoders.interval_type SampleDecoders.aggregation_type
           SampleDecoders.time_zone SampleDecoders.sort_direction
           SampleDecoders.small_int SampleDecoders.sideways).
  reflexivity.
Defined.
